(** * Scale-path indexing of the scattering transform

    A shallow embedding of [scatcov/scattering_network/scale_indexer.py]
    (class [ScaleIndexer]) and the properties of its path enumeration,
    its path <-> index coding and its order / low-pass queries.

    Python integers are unbounded, so they are values of [Z]; tuples and
    lists of integers are [list Z]; a NumPy table of paths is the list of
    its rows (the coordinates are bounded by [J * Q], far below the range
    of a 64-bit cell for every table that can be enumerated); an
    [OrderedDict] is an association list in insertion order; a raised
    exception is the [Raise] branch of [result]. *)

From Stdlib Require Import ZArith List Bool Lia FinFun Sorted.
Import ListNotations.
Open Scope Z_scope.

(** ** Exceptions and the error monad *)

Inductive exn : Set :=
| IndexError
| KeyError
| ZeroDivisionError
| AssertionError.

Inductive result (A : Type) : Type :=
| Ok (a : A)
| Raise (e : exn).

Arguments Ok {A} a.
Arguments Raise {A} e.

Definition bind {A B : Type} (c : result A) (k : A -> result B) : result B :=
  match c with
  | Ok a => k a
  | Raise e => Raise e
  end.

Notation "x <- c ;; k" := (bind c (fun x => k))
  (at level 61, c at next level, right associativity).

Fixpoint mapM {A B : Type} (f : A -> result B) (l : list A) : result (list B) :=
  match l with
  | [] => Ok []
  | x :: xs => y <- f x ;; ys <- mapM f xs ;; Ok (y :: ys)
  end.

(** [[x for x in l if f x]] where the test itself may raise. *)
Fixpoint filterM {A : Type} (f : A -> result bool) (l : list A) : result (list A) :=
  match l with
  | [] => Ok []
  | x :: xs =>
      b <- f x ;; ys <- filterM f xs ;; Ok (if b then x :: ys else ys)
  end.

(** [assert b] *)
Definition assert (b : bool) : result unit :=
  if b then Ok tt else Raise AssertionError.

(** ** Python and NumPy primitives used by the class *)

Definition len {A : Type} (l : list A) : Z := Z.of_nat (length l).

(** [range(lo, hi)] and [range(n)]; empty when [hi <= lo]. *)
Definition py_range2 (lo hi : Z) : list Z :=
  map (fun i => lo + Z.of_nat i) (seq 0 (Z.to_nat (hi - lo))).

Definition py_range (n : Z) : list Z := py_range2 0 n.

(** [l[i]]: a negative index counts from the end; out of range raises. *)
Definition py_getitem {A : Type} (l : list A) (i : Z) : result A :=
  let k := if i <? 0 then len l + i else i in
  if k <? 0 then Raise IndexError
  else match nth_error l (Z.to_nat k) with
       | Some x => Ok x
       | None => Raise IndexError
       end.

(** [a // b] on integers: floor division, which is [Z.div]; a zero divisor
    raises. *)
Definition py_floordiv (a b : Z) : result Z :=
  if b =? 0 then Raise ZeroDivisionError else Ok (a / b).

(** [enumerate(l)] *)
Definition enumerate {A : Type} (l : list A) : list (Z * A) :=
  combine (py_range (len l)) l.

(** [itertools.product] of the given ranges: the last coordinate advances
    fastest. *)
Fixpoint product (ranges : list (list Z)) : list (list Z) :=
  match ranges with
  | [] => [[]]
  | rg :: rest => flat_map (fun x => map (cons x) (product rest)) rg
  end.

(** [t1 < t2] on tuples of integers (lexicographic, a proper prefix is
    smaller). *)
Fixpoint tuple_ltb (t1 t2 : list Z) : bool :=
  match t1, t2 with
  | _, [] => false
  | [], _ :: _ => true
  | x :: t1', y :: t2' =>
      if x <? y then true else if x =? y then tuple_ltb t1' t2' else false
  end.

Definition tuple_eqb (t1 t2 : list Z) : bool :=
  if list_eq_dec Z.eq_dec t1 t2 then true else false.

(** A stable insertion sort that only asks [lt], as Python's [sorted]
    does; the new element goes before the first one it is smaller than. *)
Section Sorting.
Context {A : Type} (lt : A -> A -> bool).

Fixpoint insert_sorted (x : A) (l : list A) : list A :=
  match l with
  | [] => [x]
  | y :: l' => if lt x y then x :: y :: l' else y :: insert_sorted x l'
  end.

Definition stable_sort (l : list A) : list A :=
  fold_left (fun acc x => insert_sorted x acc) l [].
End Sorting.

(** [sorted(l, key=cmp_to_key(cmp))]: the key objects compare by
    [cmp(a, b) < 0]. *)
Definition sorted_cmp_to_key {A : Type} (cmp : A -> A -> Z) (l : list A) : list A :=
  stable_sort (fun a b => cmp a b <? 0) l.

(** [np.argsort(v)]: the positions of [v] in increasing order of value.
    Ties keep their order (NumPy sorts short arrays by insertion). *)
Definition np_argsort (v : list Z) : list Z :=
  map fst (stable_sort (fun a b => snd a <? snd b) (enumerate v)).

(** [np.argmax(mask)] on a boolean array: the first [True], 0 if none. *)
Fixpoint np_argmax (mask : list bool) : nat :=
  match mask with
  | [] => 0%nat
  | true :: _ => 0%nat
  | false :: rest => if existsb (fun b => b) rest then S (np_argmax rest) else 0%nat
  end.

(** [np.array(rows)] is two-dimensional unless [rows] is empty; indexing
    an empty (one-dimensional) array with two indices raises. *)
Definition np_2d (a : list (list Z)) : result (list (list Z)) :=
  match a with
  | [] => Raise IndexError
  | _ => Ok a
  end.

(** [a[:, -1]] *)
Definition np_last_column (a : list (list Z)) : result (list Z) :=
  rows <- np_2d a ;; Ok (map (fun row => last row 0) rows).

(** [a[:, :-1]] *)
Definition np_drop_last_column (a : list (list Z)) : result (list (list Z)) :=
  rows <- np_2d a ;; Ok (map (@removelast Z) rows).

(** [a[mask, :]] for a boolean mask with one entry per row. *)
Definition np_select_rows (a : list (list Z)) (mask : list bool) : list (list Z) :=
  map fst (filter snd (combine a mask)).

(** [np.unique(a, axis=0)]: the distinct rows in lexicographic order. *)
Fixpoint dedup_adjacent (l : list (list Z)) : list (list Z) :=
  match l with
  | [] => []
  | x :: l' =>
      match l' with
      | [] => [x]
      | y :: _ => if tuple_eqb x y then dedup_adjacent l' else x :: dedup_adjacent l'
      end
  end.

Definition np_unique_rows (a : list (list Z)) : list (list Z) :=
  dedup_adjacent (stable_sort tuple_ltb a).

(** [np.all(a == b)] on two tables with the same number of columns: row
    by row when the row counts agree, one row against all when one table
    has a single row (broadcasting), false on any other pair of shapes. *)
Definition np_all_eq (a b : list (list Z)) : bool :=
  if (length a =? length b)%nat then
    forallb (fun ab => tuple_eqb (fst ab) (snd ab)) (combine a b)
  else match a, b with
       | [x], _ => forallb (tuple_eqb x) b
       | _, [y] => forallb (fun x => tuple_eqb x y) a
       | _, _ => false
       end.

(** ** Ordered dictionaries *)

Section OrderedDict.
Context {K V : Type} (eq_dec : forall x y : K, {x = y} + {x <> y}).

Definition odict : Type := list (K * V).

(** [d[k]] *)
Fixpoint od_lookup (d : odict) (k : K) : option V :=
  match d with
  | [] => None
  | (k', v) :: d' => if eq_dec k k' then Some v else od_lookup d' k
  end.

Definition od_getitem (d : odict) (k : K) : result V :=
  match od_lookup d k with
  | Some v => Ok v
  | None => Raise KeyError
  end.

(** [d[k] = v]: a present key keeps its place, a new one goes last. *)
Fixpoint od_set (d : odict) (k : K) (v : V) : odict :=
  match d with
  | [] => [(k, v)]
  | (k', v') :: d' =>
      if eq_dec k k' then (k', v) :: d' else (k', v') :: od_set d' k v
  end.

(** [d.update(items)], also what a dict comprehension does from [{}]. *)
Definition od_update (d : odict) (items : list (K * V)) : odict :=
  fold_left (fun acc kv => od_set acc (fst kv) (snd kv)) items d.

Definition od_keys (d : odict) : list K := map fst d.
Definition od_values (d : odict) : list V := map snd d.
End OrderedDict.

Arguments odict K V : clear implicits.

Definition path_eq_dec : forall p q : list Z, {p = q} + {p <> q} :=
  list_eq_dec Z.eq_dec.

(** ** The class [ScaleIndexer] *)

Module ScaleIndexer.

(** The attributes of an instance.  [__init__] sets them one after the
    other; a method only reads the ones set before it is called. *)
Record t : Type := mk {
  J : Z;
  Qs : list Z;
  r_max : Z;
  sc_paths : list (list (list Z));
  p_coding : odict (list Z) Z;
  p_decoding : odict Z (list Z);
  sc_idces : list (list Z);
  low_pass_mask : list (list bool)
}.

(** A tuple returned by [idx_to_path]: integers when squeezed, cells
    that may hold [pd.NA] ([None]) when padded. *)
Definition tuple_of (squeeze : bool) : Type :=
  if squeeze then list Z else list (option Z).

(** [JQ]: [self.J * self.Qs[r-1]] *)
Definition JQ (self : t) (r : Z) : result Z :=
  q <- py_getitem (Qs self) (r - 1) ;; Ok (J self * q).

(** The generator inside [all(...)] of [condition], which reads
    [self.Qs], consumed pair by pair from position [order]; [all] stops
    at the first false test. *)
Fixpoint all_increasing (Qs : list Z) (order : Z) (pairs : list (Z * Z)) : result bool :=
  match pairs with
  | [] => Ok true
  | (i, j) :: rest =>
      qi <- py_getitem Qs order ;;
      a <- py_floordiv i qi ;;
      qj <- py_getitem Qs (order + 1) ;;
      b <- py_floordiv j qj ;;
      if a <? b then all_increasing Qs (order + 1) rest else Ok false
  end.

(** [condition]: is the path [j1, ..., jr] admissible *)
Definition condition (self : t) (path : list Z) : result bool :=
  if len path <=? r_max self
  then all_increasing (Qs self) 0 (combine (removelast path) (tl path))
  else Ok false.

(** [range(self.JQ(o+1)+1)], one factor of the product in
    [create_sc_paths]. *)
Definition range_of (self : t) (o : Z) : result (list Z) :=
  jq <- JQ self (o + 1) ;; Ok (py_range (jq + 1)).

(** The table of order [r] built in the loop body of [create_sc_paths]. *)
Definition sc_paths_of_order (self : t) (r : Z) : result (list (list Z)) :=
  ranges <- mapM (range_of self) (py_range r) ;;
  filterM (condition self) (product ranges).

(** [create_sc_paths] *)
Definition create_sc_paths (self : t) : result (list (list (list Z))) :=
  mapM (sc_paths_of_order self) (py_range2 1 (r_max self + 1)).

(** [list(chain.from_iterable(self.sc_paths))]: the paths of all orders,
    order after order. *)
Definition all_paths (self : t) : list (list Z) := concat (sc_paths self).

(** The items [tuple(path): i] of the dict comprehension in
    [construct_path_coding_dicts]. *)
Definition numbered (self : t) : list (list Z * Z) :=
  map (fun ip => (snd ip, fst ip)) (enumerate (all_paths self)).

(** [construct_path_coding_dicts] *)
Definition construct_path_coding_dicts (self : t)
  : odict (list Z) Z * odict Z (list Z) :=
  let coding := [([], 0)] in
  let coding :=
    od_update path_eq_dec coding (od_update path_eq_dec [] (numbered self)) in
  let decoding :=
    od_update Z.eq_dec [] (map (fun kv => (snd kv, fst kv)) coding) in
  (coding, decoding).

(** [get_all_paths], [get_all_idces] *)
Definition get_all_paths (self : t) : list (list Z) := od_keys (p_coding self).
Definition get_all_idces (self : t) : list Z := od_keys (p_decoding self).

(** The [if] statement of [path_to_idx]: a path that ends with -1 is
    cut at its first -1, any other path is left as it is. *)
Definition cut_at_sentinel (path : list Z) : list Z :=
  if (0 <? len path) && (last path 0 =? -1)
  then let i0 := np_argmax (map (fun x => x =? -1) path) in firstn i0 path
  else path.

(** [path_to_idx] *)
Definition path_to_idx (self : t) (path : list Z) : result Z :=
  let path := cut_at_sentinel path in
  od_getitem path_eq_dec (p_coding self) path.

(** [idx_to_path] *)
Definition idx_to_path (self : t) (idx : Z) (squeeze : bool)
  : result (tuple_of squeeze) :=
  match squeeze return result (tuple_of squeeze) with
  | true =>
      if idx =? -1 then Ok []
      else od_getitem Z.eq_dec (p_decoding self) idx
  | false =>
      if idx =? -1 then Ok []
      else
        p <- od_getitem Z.eq_dec (p_decoding self) idx ;;
        p' <- od_getitem Z.eq_dec (p_decoding self) idx ;;
        Ok (map Some p ++ repeat None (Z.to_nat (r_max self - len p')))
  end.

(** [r]: the scattering order of the path indexed by [idx] *)
Definition r (self : t) (idx : Z) : result Z :=
  p <- idx_to_path self idx true ;; Ok (len p).

(** [is_low_pass] *)
Definition is_low_pass (self : t) (idx : Z) : result bool :=
  p <- idx_to_path self idx true ;;
  j <- py_getitem p (-1) ;;
  order <- r self idx ;;
  jq <- JQ self order ;;
  Ok (j >=? jq).

(** [create_sc_idces] *)
Definition create_sc_idces (self : t) : result (list (list Z)) :=
  mapM (fun r =>
          paths <- py_getitem (sc_paths self) (r - 1) ;;
          mapM (path_to_idx self) paths)
       (py_range2 1 (r_max self + 1)).

(** [compute_low_pass_mask] *)
Definition compute_low_pass_mask (self : t) : result (list (list bool)) :=
  mapM (fun op =>
          let '(order, paths) := op in
          col <- np_last_column paths ;;
          jq <- JQ self (order + 1) ;;
          Ok (map (fun j => j =? jq) col))
       (enumerate (firstn 3 (sc_paths self))).

(** The comparison function local to [checks]; its boolean is read as
    the integer 1 or 0 by [cmp_to_key]. *)
Definition compare (t1 t2 : list Z) : Z :=
  Z.b2z (((len t1 =? len t2) && tuple_ltb t1 t2) || (len t1 <? len t2)).

(** [checks] *)
Definition checks (self : t) : result unit :=
  let argsort := np_argsort (od_values (p_coding self)) in
  let paths := od_keys (p_coding self) in
  by_idx <- mapM (py_getitem paths) argsort ;;
  _ <- assert (if list_eq_dec path_eq_dec (sorted_cmp_to_key compare paths) by_idx
               then true else false) ;;
  if forallb (fun Q => Q =? 1) (Qs self) then
    _ <- mapM (fun r =>
                 order_r <- py_getitem (sc_paths self) (r - 1) ;;
                 truncated <- np_drop_last_column order_r ;;
                 let collapsed := np_unique_rows truncated in
                 order_prev <- py_getitem (sc_paths self) (r - 2) ;;
                 mask <- py_getitem (low_pass_mask self) (r - 2) ;;
                 let previous_order := np_select_rows order_prev (map negb mask) in
                 assert (np_all_eq collapsed previous_order))
              (if 2 <=? r_max self then [2] else []) ;;
    Ok tt
  else Ok tt.

(** [__init__] *)
Definition __init__ (J : Z) (Qs : list Z) (r_max : Z) : result t :=
  let self := mk J Qs r_max [] [] [] [] [] in
  paths <- create_sc_paths self ;;
  let self := mk J Qs r_max paths [] [] [] [] in
  let '(coding, decoding) := construct_path_coding_dicts self in
  let self := mk J Qs r_max paths coding decoding [] [] in
  idces <- create_sc_idces self ;;
  let self := mk J Qs r_max paths coding decoding idces [] in
  mask <- compute_low_pass_mask self ;;
  let self := mk J Qs r_max paths coding decoding idces mask in
  _ <- checks self ;;
  Ok self.

End ScaleIndexer.

Import ScaleIndexer.

(** ** The words of the specification *)

(** The admissible paths of order [r] in the words of the specification:
    [r] coordinates, the [k]-th one in [range(J * Qs[k-1] + 1)], and
    every adjacent pair strictly increasing after division by the
    densities of its two orders. *)
Definition in_ranges (J : Z) (Qs : list Z) (p : list Z) : Prop :=
  forall k j, nth_error p k = Some j ->
    exists q, nth_error Qs k = Some q /\ 0 <= j < J * q + 1.

Definition increasing (Qs : list Z) (p : list Z) : Prop :=
  forall k a b qa qb,
    nth_error p k = Some a -> nth_error p (S k) = Some b ->
    nth_error Qs k = Some qa -> nth_error Qs (S k) = Some qb ->
    a / qa < b / qb.

Definition admissible (J : Z) (Qs : list Z) (r : Z) (p : list Z) : Prop :=
  len p = r /\ in_ranges J Qs p /\ increasing Qs p.

(** The indices that [construct_path_coding_dicts] assigns: one per
    enumerated path, and index 0 alone when nothing is enumerated. *)
Definition assigned (self : t) (idx : Z) : Prop :=
  0 <= idx < Z.max 1 (len (all_paths self)).

(** ** Some constructed indexers *)

(** [ScaleIndexer(3, [1], 1)] *)
Definition indexer_3_1 : t :=
  mk 3 [1] 1
     [[[0]; [1]; [2]; [3]]]
     [([], 0); ([0], 0); ([1], 1); ([2], 2); ([3], 3)]
     [(0, [0]); (1, [1]); (2, [2]); (3, [3])]
     [[0; 1; 2; 3]]
     [[false; false; false; true]].

(** [ScaleIndexer(2, [2, 1], 2)] *)
Definition indexer_2_21 : t :=
  mk 2 [2; 1] 2
     [[[0]; [1]; [2]; [3]; [4]];
      [[0; 1]; [0; 2]; [1; 1]; [1; 2]; [2; 2]; [3; 2]]]
     [([], 0); ([0], 0); ([1], 1); ([2], 2); ([3], 3); ([4], 4);
      ([0; 1], 5); ([0; 2], 6); ([1; 1], 7); ([1; 2], 8); ([2; 2], 9);
      ([3; 2], 10)]
     [(0, [0]); (1, [1]); (2, [2]); (3, [3]); (4, [4]);
      (5, [0; 1]); (6, [0; 2]); (7, [1; 1]); (8, [1; 2]); (9, [2; 2]);
      (10, [3; 2])]
     [[0; 1; 2; 3; 4]; [5; 6; 7; 8; 9; 10]]
     [[false; false; false; false; true];
      [false; true; false; true; true; true]].

(** [ScaleIndexer(0, [1], 1)] *)
Definition indexer_0_1 : t :=
  mk 0 [1] 1 [[[0]]] [([], 0); ([0], 0)] [(0, [0])] [[0]] [[true]].

(** [ScaleIndexer(4, [1, 1], 2)] *)
Definition indexer_4_11 : t :=
  mk 4 [1; 1] 2
     [[[0]; [1]; [2]; [3]; [4]];
      [[0; 1]; [0; 2]; [0; 3]; [0; 4]; [1; 2]; [1; 3]; [1; 4]; [2; 3]; [2; 4];
       [3; 4]]]
     [([], 0); ([0], 0); ([1], 1); ([2], 2); ([3], 3); ([4], 4);
      ([0; 1], 5); ([0; 2], 6); ([0; 3], 7); ([0; 4], 8); ([1; 2], 9);
      ([1; 3], 10); ([1; 4], 11); ([2; 3], 12); ([2; 4], 13); ([3; 4], 14)]
     [(0, [0]); (1, [1]); (2, [2]); (3, [3]); (4, [4]);
      (5, [0; 1]); (6, [0; 2]); (7, [0; 3]); (8, [0; 4]); (9, [1; 2]);
      (10, [1; 3]); (11, [1; 4]); (12, [2; 3]); (13, [2; 4]); (14, [3; 4])]
     [[0; 1; 2; 3; 4]; [5; 6; 7; 8; 9; 10; 11; 12; 13; 14]]
     [[false; false; false; false; true];
      [false; false; false; true; false; false; true; false; true; true]].

(** The instance left by a constructor call with [r_max <= 0]. *)
Definition indexer_order_0 (J : Z) (Qs : list Z) (r_max : Z) : t :=
  mk J Qs r_max [] [([], 0)] [(0, [])] [] [].

(** ** Facts about the error monad *)

Section MonadFacts.
Context {A B : Type}.

Lemma bind_ok (c : result A) (k : A -> result B) (b : B) :
  bind c k = Ok b -> exists a, c = Ok a /\ k a = Ok b.
Proof. destruct c as [a|e]; simpl; [eauto | discriminate]. Qed.

Lemma mapM_ok (f : A -> result B) (l : list A) (l' : list B) :
  mapM f l = Ok l' -> Forall2 (fun x y => f x = Ok y) l l'.
Proof.
  revert l'; induction l as [|x xs IH]; simpl; intros l' H.
  - injection H as <-; constructor.
  - destruct (f x) as [y|] eqn:Hy; simpl in H; [|discriminate].
    destruct (mapM f xs) as [ys|] eqn:Hys; simpl in H; [|discriminate].
    injection H as <-; constructor; auto.
Qed.

Lemma mapM_total (f : A -> result B) (l : list A) :
  (forall x, In x l -> exists y, f x = Ok y) -> exists l', mapM f l = Ok l'.
Proof.
  induction l as [|x xs IH]; simpl; intros H; [eauto|].
  destruct (H x (or_introl eq_refl)) as [y ->]; simpl.
  destruct IH as [ys ->]; [intros; apply H; auto|]. simpl; eauto.
Qed.

Lemma mapM_raise (f : A -> result B) (l : list A) (x : A) (e : exn) :
  In x l -> f x = Raise e -> exists e', mapM f l = Raise e'.
Proof.
  induction l as [|y ys IH]; simpl; intros Hin Hx; [contradiction|].
  destruct (f y) as [b|e0] eqn:Hy; simpl; [|eauto].
  destruct Hin as [->|Hin]; [congruence|].
  destruct (IH Hin Hx) as [e' ->]; simpl; eauto.
Qed.

End MonadFacts.

Lemma Forall2_nth_error {A B : Type} (R : A -> B -> Prop) l l' n x :
  Forall2 R l l' -> nth_error l n = Some x ->
  exists y, nth_error l' n = Some y /\ R x y.
Proof.
  intros H; revert n; induction H; intros [|n]; simpl; intros Hn;
    try discriminate.
  - injection Hn as <-; eauto.
  - eauto.
Qed.

Lemma Forall2_nth_error_r {A B : Type} (R : A -> B -> Prop) l l' n y :
  Forall2 R l l' -> nth_error l' n = Some y ->
  exists x, nth_error l n = Some x /\ R x y.
Proof.
  intros H; revert n; induction H; intros [|n]; simpl; intros Hn;
    try discriminate.
  - injection Hn as <-; eauto.
  - eauto.
Qed.

Section FilterFacts.
Context {A : Type} (f : A -> result bool).

Lemma filterM_In (l l' : list A) (x : A) :
  filterM f l = Ok l' -> (In x l' <-> In x l /\ f x = Ok true).
Proof.
  revert l'; induction l as [|y ys IH]; simpl; intros l' H.
  - injection H as <-; simpl; tauto.
  - destruct (f y) as [b|] eqn:Hy; simpl in H; [|discriminate].
    destruct (filterM f ys) as [zs|] eqn:Hzs; simpl in H; [|discriminate].
    injection H as <-. specialize (IH _ eq_refl).
    destruct b; simpl; rewrite IH; split.
    + intros [->|[? ?]]; auto.
    + intros [[->|?] ?]; auto.
    + intros [? ?]; auto.
    + intros [[->|?] ?]; [congruence | auto].
Qed.

Lemma filterM_evaluated (l l' : list A) (x : A) :
  filterM f l = Ok l' -> In x l -> exists b, f x = Ok b.
Proof.
  revert l'; induction l as [|y ys IH]; simpl; intros l' H Hin; [contradiction|].
  destruct (f y) as [b|] eqn:Hy; simpl in H; [|discriminate].
  destruct (filterM f ys) as [zs|] eqn:Hzs; simpl in H; [|discriminate].
  destruct Hin as [<-|Hin]; eauto.
Qed.

(** The kept elements stay in their order: a predicate on the list that
    survives removal of elements survives the filter. *)
Lemma filterM_filter (l l' : list A) :
  filterM f l = Ok l' ->
  l' = filter (fun x => match f x with Ok b => b | Raise _ => false end) l.
Proof.
  revert l'; induction l as [|y ys IH]; simpl; intros l' H.
  - now injection H as <-.
  - destruct (f y) as [b|] eqn:Hy; simpl in H; [|discriminate].
    destruct (filterM f ys) as [zs|] eqn:Hzs; simpl in H; [|discriminate].
    injection H as <-. rewrite (IH _ eq_refl). now destruct b.
Qed.

Lemma filterM_total (l : list A) :
  (forall x, In x l -> exists b, f x = Ok b) -> exists l', filterM f l = Ok l'.
Proof.
  induction l as [|x xs IH]; simpl; intros H; [eauto|].
  destruct (H x (or_introl eq_refl)) as [b ->]; simpl.
  destruct IH as [ys ->]; [intros; apply H; auto|]. simpl; eauto.
Qed.
End FilterFacts.

(** ** Facts about ranges and indexing *)

Lemma len_nonneg {A : Type} (l : list A) : 0 <= len l.
Proof. unfold len; lia. Qed.

Lemma py_range2_length lo hi : length (py_range2 lo hi) = Z.to_nat (hi - lo).
Proof. unfold py_range2. now rewrite length_map, length_seq. Qed.

Lemma py_range2_nth_error lo hi n :
  (n < Z.to_nat (hi - lo))%nat ->
  nth_error (py_range2 lo hi) n = Some (lo + Z.of_nat n).
Proof.
  intros H. unfold py_range2.
  rewrite nth_error_map, nth_error_seq.
  destruct (Nat.ltb_spec n (Z.to_nat (hi - lo))); [reflexivity | lia].
Qed.

Lemma py_range2_In lo hi x : In x (py_range2 lo hi) <-> lo <= x < hi.
Proof.
  unfold py_range2. rewrite in_map_iff. split.
  - intros (i & <- & Hi). apply in_seq in Hi. lia.
  - intros H. exists (Z.to_nat (x - lo)). split; [lia|]. apply in_seq. lia.
Qed.

Lemma py_range_In n x : In x (py_range n) <-> 0 <= x < n.
Proof. apply py_range2_In. Qed.

Lemma py_range2_NoDup lo hi : NoDup (py_range2 lo hi).
Proof.
  unfold py_range2. apply Injective_map_NoDup.
  - intros a b H; lia.
  - apply seq_NoDup.
Qed.

Lemma py_getitem_nonneg {A : Type} (l : list A) (i : Z) :
  0 <= i -> py_getitem l i =
            match nth_error l (Z.to_nat i) with
            | Some x => Ok x
            | None => Raise IndexError
            end.
Proof.
  intros H. unfold py_getitem.
  destruct (Z.ltb_spec i 0); [lia|]. destruct (Z.ltb_spec i 0); [lia|]. reflexivity.
Qed.

Lemma py_getitem_last (l : list Z) :
  l <> [] -> py_getitem l (-1) = Ok (last l 0).
Proof.
  intros H. unfold py_getitem, len. simpl (-1 <? 0).
  cbv iota.
  destruct (exists_last H) as (l' & a & ->).
  rewrite last_last, length_app; simpl.
  destruct (Z.ltb_spec (Z.of_nat (length l' + 1) + -1) 0); [lia|].
  replace (Z.to_nat (Z.of_nat (length l' + 1) + -1)) with (length l') by lia.
  rewrite nth_error_app2, Nat.sub_diag by lia. reflexivity.
Qed.

(** ** Facts about the cartesian product *)

Lemma product_In (ranges : list (list Z)) (p : list Z) :
  In p (product ranges) <-> Forall2 (fun x rg => In x rg) p ranges.
Proof.
  revert p; induction ranges as [|rg rest IH]; simpl; intros p.
  - split.
    + intros [<-|[]]; constructor.
    + intros H; inversion H; auto.
  - rewrite in_flat_map. split.
    + intros (x & Hx & Hp). apply in_map_iff in Hp as (p' & <- & Hp').
      constructor; [assumption | now apply IH].
    + intros H; inversion H as [|x rg' p' rest' Hx Hp']; subst.
      exists x; split; [assumption|]. apply in_map, IH, Hp'.
Qed.

Lemma product_length (ranges : list (list Z)) (p : list Z) :
  In p (product ranges) -> length p = length ranges.
Proof. rewrite product_In. apply Forall2_length. Qed.

Lemma product_NoDup (ranges : list (list Z)) :
  Forall (@NoDup Z) ranges -> NoDup (product ranges).
Proof.
  induction 1 as [|rg rest Hrg _ IH]; simpl.
  - constructor; [simpl; tauto | constructor].
  - induction Hrg as [|x rg Hx _ IHrg]; simpl; [constructor|].
    apply NoDup_app; [| assumption |].
    + apply Injective_map_NoDup; [|assumption]. intros a b H; congruence.
    + intros p Hp Hq. apply in_map_iff in Hp as (p' & <- & _).
      apply in_flat_map in Hq as (y & Hy & Hq).
      apply in_map_iff in Hq as (q' & Hq & _). congruence.
Qed.

(** ** Facts about ordered dictionaries *)

Section OrderedDictFacts.
Context {K V : Type} (eq_dec : forall x y : K, {x = y} + {x <> y}).

Local Abbreviation lookup := (od_lookup eq_dec).
Local Abbreviation set := (od_set eq_dec).
Local Abbreviation update := (od_update eq_dec).

Lemma od_lookup_app (d1 d2 : odict K V) (k : K) :
  lookup (d1 ++ d2) k =
  match lookup d1 k with Some v => Some v | None => lookup d2 k end.
Proof.
  induction d1 as [|[k' v'] d1 IH]; simpl; [reflexivity|].
  destruct (eq_dec k k'); auto.
Qed.

Lemma od_lookup_set (d : odict K V) (k k' : K) (v : V) :
  lookup (set d k v) k' = if eq_dec k' k then Some v else lookup d k'.
Proof.
  induction d as [|[k0 v0] d IH]; simpl.
  - reflexivity.
  - destruct (eq_dec k k0) as [->|Hk]; simpl.
    + destruct (eq_dec k' k0); reflexivity.
    + rewrite IH. destruct (eq_dec k' k0) as [->|]; [|reflexivity].
      destruct (eq_dec k0 k); [congruence | reflexivity].
Qed.

(** After an update a key holds the last value the items give it. *)
Lemma od_lookup_update (items : list (K * V)) (d : odict K V) (k : K) :
  lookup (update d items) k =
  match lookup (rev items) k with Some v => Some v | None => lookup d k end.
Proof.
  revert d; induction items as [|[k0 v0] items IH]; intros d; simpl.
  - reflexivity.
  - unfold od_update in *; simpl. rewrite IH, od_lookup_app; simpl.
    destruct (lookup (rev items) k); [reflexivity|].
    rewrite od_lookup_set. destruct (eq_dec k k0); reflexivity.
Qed.

Lemma od_lookup_None (d : odict K V) (k : K) :
  lookup d k = None <-> ~ In k (od_keys d).
Proof.
  induction d as [|[k' v'] d IH]; simpl; [tauto|].
  destruct (eq_dec k k') as [->|Hk].
  - split; [discriminate | intros H; exfalso; auto].
  - rewrite IH. split; [intros H [?|?]; [congruence | auto] | tauto].
Qed.

Lemma od_lookup_Some_In (d : odict K V) (k : K) (v : V) :
  lookup d k = Some v -> In (k, v) d.
Proof.
  induction d as [|[k' v'] d IH]; simpl; [discriminate|].
  destruct (eq_dec k k') as [->|Hk]; [intros [= ->]; auto | auto].
Qed.

Lemma od_lookup_In (d : odict K V) (k : K) (v : V) :
  NoDup (od_keys d) -> In (k, v) d -> lookup d k = Some v.
Proof.
  induction d as [|[k' v'] d IH]; simpl; [contradiction|].
  intros Hnd [[= -> ->]|Hin].
  - destruct (eq_dec k k); [reflexivity | congruence].
  - inversion Hnd as [|? ? Hk' Hnd']; subst.
    destruct (eq_dec k k') as [->|]; [|auto].
    exfalso; apply Hk'. change k' with (fst (k', v)). now apply in_map.
Qed.

Lemma od_set_fresh (d : odict K V) (k : K) (v : V) :
  ~ In k (od_keys d) -> set d k v = d ++ [(k, v)].
Proof.
  induction d as [|[k' v'] d IH]; simpl; intros H; [reflexivity|].
  destruct (eq_dec k k') as [->|]; [exfalso; auto|].
  rewrite IH; auto.
Qed.

(** Items with distinct keys, none of them present yet, are appended. *)
Lemma od_update_fresh (items : list (K * V)) (d : odict K V) :
  NoDup (map fst items) ->
  (forall k, In k (map fst items) -> ~ In k (od_keys d)) ->
  update d items = d ++ items.
Proof.
  revert d; induction items as [|[k v] items IH]; intros d Hnd Hfresh.
  - simpl. now rewrite app_nil_r.
  - inversion Hnd as [|? ? Hk Hnd']; subst.
    unfold od_update in *; simpl.
    rewrite od_set_fresh by (apply Hfresh; simpl; auto).
    rewrite IH; auto.
    + now rewrite <- app_assoc.
    + intros k' Hk'. unfold od_keys. rewrite map_app, in_app_iff; simpl.
      intros [H|[<-|[]]]; [|auto].
      apply (Hfresh k'); simpl; auto.
Qed.
End OrderedDictFacts.

(** ** The enumeration of [create_sc_paths] *)

Lemma adjacent_pairs_nth_error (p : list Z) (k : nat) (a b : Z) :
  nth_error (combine (removelast p) (tl p)) k = Some (a, b) <->
  nth_error p k = Some a /\ nth_error p (S k) = Some b.
Proof.
  revert k; induction p as [|x [|y l] IH]; intros k.
  - simpl. destruct k; simpl; split; intros H; try discriminate; destruct H; discriminate.
  - simpl. destruct k as [|[|k]]; simpl; split; intros H; try discriminate;
      destruct H; discriminate.
  - change (combine (removelast (x :: y :: l)) (tl (x :: y :: l)))
      with ((x, y) :: combine (removelast (y :: l)) (tl (y :: l))).
    destruct k as [|k].
    + simpl. split; [intros [= -> ->]; auto | intros [[= ->] [= ->]]; auto].
    + change (nth_error ((x, y) :: combine (removelast (y :: l)) (tl (y :: l))) (S k))
        with (nth_error (combine (removelast (y :: l)) (tl (y :: l))) k).
      rewrite IH. reflexivity.
Qed.

Section Generator.
Variable Qs : list Z.

Lemma all_increasing_true (pairs : list (Z * Z)) (n : nat) :
  all_increasing Qs (Z.of_nat n) pairs = Ok true ->
  forall k a b, nth_error pairs k = Some (a, b) ->
    exists qa qb, nth_error Qs (n + k) = Some qa /\
                  nth_error Qs (S (n + k)) = Some qb /\ a / qa < b / qb.
Proof.
  revert n; induction pairs as [|[i j] rest IH]; intros n H k a b Hk.
  - destruct k; discriminate.
  - simpl in H.
    rewrite py_getitem_nonneg in H by lia.
    rewrite Nat2Z.id in H.
    destruct (nth_error Qs n) as [qi|] eqn:Hqi; simpl in H; [|discriminate].
    unfold py_floordiv at 1 in H.
    destruct (qi =? 0); simpl in H; [discriminate|].
    rewrite py_getitem_nonneg in H by lia.
    replace (Z.to_nat (Z.of_nat n + 1)) with (S n) in H by lia.
    destruct (nth_error Qs (S n)) as [qj|] eqn:Hqj; simpl in H; [|discriminate].
    unfold py_floordiv in H.
    destruct (qj =? 0); simpl in H; [discriminate|].
    destruct (Z.ltb_spec (i / qi) (j / qj)) as [Hlt|]; [|discriminate].
    destruct k as [|k]; simpl in Hk.
    + injection Hk as -> ->. rewrite Nat.add_0_r. eauto.
    + replace (Z.of_nat n + 1) with (Z.of_nat (S n)) in H by lia.
      destruct (IH _ H _ _ _ Hk) as (qa & qb & Ha & Hb & Hab).
      exists qa, qb. replace (n + S k)%nat with (S n + k)%nat by lia. auto.
Qed.

Lemma all_increasing_false (pairs : list (Z * Z)) (n : nat) :
  all_increasing Qs (Z.of_nat n) pairs = Ok false ->
  exists k a b qa qb, nth_error pairs k = Some (a, b) /\
    nth_error Qs (n + k) = Some qa /\ nth_error Qs (S (n + k)) = Some qb /\
    ~ a / qa < b / qb.
Proof.
  revert n; induction pairs as [|[i j] rest IH]; intros n H.
  - discriminate.
  - simpl in H.
    rewrite py_getitem_nonneg in H by lia.
    rewrite Nat2Z.id in H.
    destruct (nth_error Qs n) as [qi|] eqn:Hqi; simpl in H; [|discriminate].
    unfold py_floordiv at 1 in H.
    destruct (qi =? 0); simpl in H; [discriminate|].
    rewrite py_getitem_nonneg in H by lia.
    replace (Z.to_nat (Z.of_nat n + 1)) with (S n) in H by lia.
    destruct (nth_error Qs (S n)) as [qj|] eqn:Hqj; simpl in H; [|discriminate].
    unfold py_floordiv in H.
    destruct (qj =? 0); simpl in H; [discriminate|].
    destruct (Z.ltb_spec (i / qi) (j / qj)) as [Hlt|Hge].
    + replace (Z.of_nat n + 1) with (Z.of_nat (S n)) in H by lia.
      destruct (IH _ H) as (k & a & b & qa & qb & Hk & Ha & Hb & Hab).
      exists (S k), a, b, qa, qb.
      replace (n + S k)%nat with (S n + k)%nat by lia. auto.
    + exists 0%nat, i, j, qi, qj. rewrite Nat.add_0_r.
      repeat split; auto. lia.
Qed.
End Generator.

Lemma Forall2_of_nth_error {A B : Type} (R : A -> B -> Prop) (l : list A) (l' : list B) :
  length l = length l' ->
  (forall k x y, nth_error l k = Some x -> nth_error l' k = Some y -> R x y) ->
  Forall2 R l l'.
Proof.
  revert l'; induction l as [|x l IH]; intros [|y l'] Hlen H; try discriminate.
  - constructor.
  - constructor.
    + apply (H 0%nat); reflexivity.
    + apply IH; [simpl in Hlen; lia|]. intros k; apply (H (S k)).
Qed.

Section Enumeration.
Variable self : t.

Lemma ranges_nth (n : Z) (ranges : list (list Z)) :
  mapM (range_of self) (py_range n) = Ok ranges ->
  length ranges = Z.to_nat n /\
  forall k, (k < Z.to_nat n)%nat ->
    exists q, nth_error (Qs self) k = Some q /\
              nth_error ranges k = Some (py_range (J self * q + 1)).
Proof.
  intros H. apply mapM_ok in H. split.
  - apply Forall2_length in H. rewrite <- H.
    unfold py_range. rewrite py_range2_length. lia.
  - intros k Hk.
    destruct (Forall2_nth_error _ _ _ k (Z.of_nat k) H) as (rg & Hrg & Hq).
    { unfold py_range. rewrite py_range2_nth_error by lia. reflexivity. }
    unfold range_of, JQ in Hq.
    rewrite py_getitem_nonneg in Hq by lia.
    replace (Z.to_nat (Z.of_nat k + 1 - 1)) with k in Hq by lia.
    destruct (nth_error (Qs self) k) as [q|]; simpl in Hq; [|discriminate].
    injection Hq as <-. eauto.
Qed.

Lemma ranges_NoDup (n : Z) (ranges : list (list Z)) :
  mapM (range_of self) (py_range n) = Ok ranges -> Forall (@NoDup Z) ranges.
Proof.
  intros H. apply mapM_ok in H.
  induction H as [|o rg os rgs Ho _ IH]; constructor; [|assumption].
  unfold range_of in Ho. destruct (JQ self (o + 1)); simpl in Ho; [|discriminate].
  injection Ho as <-. apply py_range2_NoDup.
Qed.

(** The table of order [r] holds exactly the admissible paths of
    order [r]. *)
Lemma sc_paths_of_order_spec (n : Z) (rows : list (list Z)) :
  0 <= n <= r_max self ->
  sc_paths_of_order self n = Ok rows ->
  forall p, In p rows <-> admissible (J self) (Qs self) n p.
Proof.
  intros Hn H p. unfold sc_paths_of_order in H.
  apply bind_ok in H as (ranges & Hranges & Hfilter).
  destruct (ranges_nth _ _ Hranges) as [Hlen Hnth].
  rewrite (filterM_In _ _ _ p Hfilter). split.
  - intros [Hprod Hcond]. apply product_In in Hprod.
    assert (Hp : length p = Z.to_nat n)
      by (rewrite <- Hlen; eapply Forall2_length; eassumption).
    split; [unfold len; lia|]. split.
    + intros k j Hk.
      destruct (Forall2_nth_error _ _ _ _ _ Hprod Hk) as (rg & Hrg & Hj).
      assert (Hlt : (k < Z.to_nat n)%nat)
        by (rewrite <- Hp; apply nth_error_Some; congruence).
      destruct (Hnth k Hlt) as (q & Hq & Hrg'). exists q. split; [assumption|].
      rewrite Hrg' in Hrg. injection Hrg as <-. now apply py_range_In in Hj.
    + intros k a b qa qb Ha Hb Hqa Hqb.
      unfold condition in Hcond.
      destruct (len p <=? r_max self); [|discriminate].
      destruct (all_increasing_true _ _ 0 Hcond k a b) as (qa' & qb' & Hqa' & Hqb' & Hlt).
      { now apply adjacent_pairs_nth_error. }
      change (0 + k)%nat with k in Hqa', Hqb'.
      rewrite Hqa in Hqa'. rewrite Hqb in Hqb'.
      injection Hqa' as <-. injection Hqb' as <-. exact Hlt.
  - intros (Hp & Hrg & Hinc).
    assert (Hprod : In p (product ranges)).
    { apply product_In, Forall2_of_nth_error; [unfold len in Hp; lia|].
      intros k x rg Hx Hk.
      destruct (Hrg k x Hx) as (q & Hq & Hbound).
      assert (Hlt : (k < Z.to_nat n)%nat)
        by (rewrite <- Hlen; apply nth_error_Some; congruence).
      destruct (Hnth k Hlt) as (q' & Hq' & Hrg').
      assert (q' = q) by congruence; subst q'.
      rewrite Hrg' in Hk. injection Hk as <-. now apply py_range_In. }
    split; [assumption|].
    destruct (filterM_evaluated _ _ _ p Hfilter Hprod) as [[|] Hb]; [assumption|].
    exfalso. unfold condition in Hb.
    destruct (Z.leb_spec (len p) (r_max self)); [|lia].
    apply (all_increasing_false _ _ 0) in Hb
      as (k & a & b & qa & qb & Hk & Hqa & Hqb & Hnot).
    apply adjacent_pairs_nth_error in Hk as [Ha Hb].
    change (0 + k)%nat with k in Hqa, Hqb.
    apply Hnot. eapply Hinc; eassumption.
Qed.

Lemma sc_paths_of_order_NoDup (n : Z) (rows : list (list Z)) :
  sc_paths_of_order self n = Ok rows -> NoDup rows.
Proof.
  intros H. unfold sc_paths_of_order in H.
  apply bind_ok in H as (ranges & Hranges & Hfilter).
  rewrite (filterM_filter _ _ _ Hfilter).
  apply NoDup_filter, product_NoDup. eapply ranges_NoDup, Hranges.
Qed.

(** The tables come one per order, in the order 1, 2, ..., [r_max]. *)
Lemma create_sc_paths_nth (tables : list (list (list Z))) :
  create_sc_paths self = Ok tables ->
  length tables = Z.to_nat (r_max self) /\
  forall k rows, nth_error tables k = Some rows ->
    (k < Z.to_nat (r_max self))%nat /\
    sc_paths_of_order self (Z.of_nat k + 1) = Ok rows.
Proof.
  intros H. apply mapM_ok in H.
  assert (Hlen : length tables = Z.to_nat (r_max self)).
  { apply Forall2_length in H. rewrite <- H, py_range2_length. lia. }
  split; [assumption|].
  intros k rows Hk.
  assert (Hlt : (k < Z.to_nat (r_max self))%nat)
    by (rewrite <- Hlen; apply nth_error_Some; congruence).
  split; [assumption|].
  destruct (Forall2_nth_error_r _ _ _ _ _ H Hk) as (n & Hn & Hrows).
  rewrite py_range2_nth_error in Hn by lia.
  injection Hn as <-. now rewrite Z.add_comm.
Qed.
End Enumeration.

(** ** The coding and decoding dictionaries *)

Lemma nth_error_combine' {A B : Type} (l1 : list A) (l2 : list B) (k : nat) :
  nth_error (combine l1 l2) k =
  match nth_error l1 k, nth_error l2 k with
  | Some a, Some b => Some (a, b)
  | _, _ => None
  end.
Proof.
  revert l2 k; induction l1 as [|a l1 IH]; intros [|b l2] [|k]; simpl; auto.
  destruct (nth_error l1 k); reflexivity.
Qed.

Lemma enumerate_nth_error {A : Type} (l : list A) (k : nat) :
  nth_error (enumerate l) k = option_map (pair (Z.of_nat k)) (nth_error l k).
Proof.
  unfold enumerate. rewrite nth_error_combine'.
  destruct (nth_error l k) as [x|] eqn:Hx; simpl.
  - unfold py_range. rewrite py_range2_nth_error; [reflexivity|].
    assert (k < length l)%nat by (apply nth_error_Some; congruence).
    unfold len. lia.
  - destruct (nth_error (py_range (len l)) k); reflexivity.
Qed.

Lemma enumerate_In {A : Type} (l : list A) (i : Z) (x : A) :
  In (i, x) (enumerate l) <-> 0 <= i /\ nth_error l (Z.to_nat i) = Some x.
Proof.
  split.
  - intros H. apply In_nth_error in H as [k Hk].
    rewrite enumerate_nth_error in Hk.
    destruct (nth_error l k) as [y|] eqn:Hy; simpl in Hk; [|discriminate].
    injection Hk as <- <-. rewrite Nat2Z.id. split; [lia | assumption].
  - intros [Hi Hx]. apply (nth_error_In _ (Z.to_nat i)).
    rewrite enumerate_nth_error, Hx; simpl. f_equal. f_equal. lia.
Qed.

Lemma combine_map_fst {A B : Type} (l1 : list A) (l2 : list B) :
  length l1 = length l2 -> map fst (combine l1 l2) = l1.
Proof.
  revert l2; induction l1 as [|a l1 IH]; intros [|b l2] H; simpl in *;
    try discriminate; [reflexivity|].
  f_equal. apply IH. lia.
Qed.

Lemma combine_map_snd {A B : Type} (l1 : list A) (l2 : list B) :
  length l1 = length l2 -> map snd (combine l1 l2) = l2.
Proof.
  revert l2; induction l1 as [|a l1 IH]; intros [|b l2] H; simpl in *;
    try discriminate; [reflexivity|].
  f_equal. apply IH. lia.
Qed.

Lemma enumerate_fst {A : Type} (l : list A) :
  map fst (enumerate l) = py_range (len l).
Proof.
  unfold enumerate. apply combine_map_fst.
  unfold py_range. rewrite py_range2_length. unfold len. lia.
Qed.

Lemma enumerate_snd {A : Type} (l : list A) : map snd (enumerate l) = l.
Proof.
  unfold enumerate. apply combine_map_snd.
  unfold py_range. rewrite py_range2_length. unfold len. lia.
Qed.

Section Coding.
Variable self : t.

Hypothesis paths_NoDup : NoDup (all_paths self).
Hypothesis paths_nonempty : ~ In [] (all_paths self).

Local Abbreviation paths := (all_paths self).
Local Abbreviation coding := (fst (construct_path_coding_dicts self)).
Local Abbreviation decoding := (snd (construct_path_coding_dicts self)).
Local Abbreviation numbered := (ScaleIndexer.numbered self).

Lemma numbered_keys : map fst numbered = paths.
Proof. unfold numbered. rewrite map_map; simpl. apply enumerate_snd. Qed.

Lemma coding_eq : coding = ([], 0) :: numbered.
Proof.
  unfold coding, construct_path_coding_dicts; simpl. fold paths. fold numbered.
  rewrite (od_update_fresh path_eq_dec numbered []);
    [| rewrite numbered_keys; assumption | simpl; tauto ].
  rewrite app_nil_l.
  rewrite od_update_fresh; [reflexivity | rewrite numbered_keys; assumption |].
  intros k Hk. rewrite numbered_keys in Hk. simpl.
  intros [<-|[]]. contradiction.
Qed.

Lemma coding_keys : od_keys coding = [] :: paths.
Proof. rewrite coding_eq. unfold od_keys; simpl. now rewrite numbered_keys. Qed.

Lemma coding_lookup_nil : od_lookup path_eq_dec coding [] = Some 0.
Proof. rewrite coding_eq. reflexivity. Qed.

(** A path is coded by its position in the enumeration, counted from 0. *)
Lemma coding_lookup_nth (k : nat) (p : list Z) :
  nth_error paths k = Some p ->
  od_lookup path_eq_dec coding p = Some (Z.of_nat k).
Proof.
  intros Hk. apply od_lookup_In.
  - rewrite coding_keys. constructor; assumption.
  - rewrite coding_eq. right. unfold numbered.
    apply in_map_iff. exists (Z.of_nat k, p). split; [reflexivity|].
    apply enumerate_In. rewrite Nat2Z.id. split; [lia | assumption].
Qed.

Lemma coding_lookup_None (p : list Z) :
  od_lookup path_eq_dec coding p = None <-> p <> [] /\ ~ In p paths.
Proof.
  rewrite od_lookup_None, coding_keys; simpl.
  split; [intros H; split; [intros ->|]; tauto | intros [? ?] [?|?]; [congruence | auto]].
Qed.

Lemma decoding_eq :
  decoding = od_update Z.eq_dec [] ((0, []) :: enumerate paths).
Proof.
  unfold decoding, construct_path_coding_dicts; simpl.
  change (od_update path_eq_dec [([], 0)] _) with coding.
  rewrite coding_eq; simpl. f_equal. unfold numbered.
  rewrite map_map; simpl. rewrite <- (map_id (enumerate paths)) at 2.
  apply map_ext. now intros [i p].
Qed.

Lemma enumerate_rev_lookup_nth (k : nat) (p : list Z) :
  nth_error paths k = Some p ->
  od_lookup Z.eq_dec (rev (enumerate paths)) (Z.of_nat k) = Some p.
Proof.
  intros Hk. apply od_lookup_In.
  - unfold od_keys. rewrite map_rev, enumerate_fst.
    apply NoDup_rev, py_range2_NoDup.
  - apply in_rev. rewrite rev_involutive.
    apply enumerate_In. rewrite Nat2Z.id. split; [lia | assumption].
Qed.

Lemma enumerate_rev_lookup_out (i : Z) :
  ~ 0 <= i < len paths ->
  od_lookup Z.eq_dec (rev (enumerate paths)) i = None.
Proof.
  intros Hi. apply od_lookup_None.
  unfold od_keys. rewrite map_rev, enumerate_fst, <- in_rev, py_range_In.
  assumption.
Qed.

(** An index decodes to the path at that position of the enumeration. *)
Lemma decoding_lookup_nth (k : nat) (p : list Z) :
  nth_error paths k = Some p ->
  od_lookup Z.eq_dec decoding (Z.of_nat k) = Some p.
Proof.
  intros Hk. rewrite decoding_eq, od_lookup_update.
  simpl rev. rewrite od_lookup_app, (enumerate_rev_lookup_nth _ _ Hk).
  reflexivity.
Qed.

Lemma decoding_lookup_out (i : Z) :
  ~ 0 <= i < len paths ->
  od_lookup Z.eq_dec decoding i = if i =? 0 then Some [] else None.
Proof.
  intros Hi. rewrite decoding_eq, od_lookup_update.
  simpl rev. rewrite od_lookup_app, (enumerate_rev_lookup_out _ Hi). simpl.
  destruct (Z.eq_dec i 0) as [->|]; [reflexivity|].
  destruct (Z.eqb_spec i 0); [contradiction | reflexivity].
Qed.
End Coding.

(** ** Constructed indexers *)

(** What a successful [__init__] leaves in the instance: every attribute
    is the result of its method on the instance itself. *)
Lemma init_ok (J : Z) (Qs : list Z) (r_max : Z) (self : t) :
  __init__ J Qs r_max = Ok self ->
  ScaleIndexer.J self = J /\ ScaleIndexer.Qs self = Qs /\
  ScaleIndexer.r_max self = r_max /\
  create_sc_paths self = Ok (sc_paths self) /\
  construct_path_coding_dicts self = (p_coding self, p_decoding self) /\
  create_sc_idces self = Ok (sc_idces self) /\
  compute_low_pass_mask self = Ok (low_pass_mask self) /\
  checks self = Ok tt.
Proof.
  unfold __init__. intros H.
  apply bind_ok in H as (paths & Hpaths & H).
  destruct (construct_path_coding_dicts _) as [coding decoding] eqn:Hdicts.
  apply bind_ok in H as (idces & Hidces & H).
  apply bind_ok in H as (mask & Hmask & H).
  apply bind_ok in H as ([] & Hchecks & H).
  injection H as <-. simpl.
  repeat split; assumption.
Qed.

Lemma NoDup_concat_by_length {A : Type} (tables : list (list (list A))) (n : nat) :
  (forall k rows, nth_error tables k = Some rows ->
     NoDup rows /\ forall p, In p rows -> length p = (n + k)%nat) ->
  NoDup (concat tables).
Proof.
  revert n; induction tables as [|rows rest IH]; intros n H; simpl.
  - constructor.
  - destruct (H 0%nat rows eq_refl) as [Hnd Hlen].
    apply NoDup_app; [assumption | |].
    + apply (IH (S n)). intros k rows' Hk.
      destruct (H (S k) rows' Hk) as [Hnd' Hlen']. split; [assumption|].
      intros p Hp. rewrite (Hlen' p Hp). lia.
    + intros p Hp Hq. apply in_concat in Hq as (rows' & Hrows' & Hq).
      apply In_nth_error in Hrows' as [k Hk].
      destruct (H (S k) rows' Hk) as [_ Hlen'].
      specialize (Hlen p Hp). specialize (Hlen' p Hq). lia.
Qed.

Section Constructed.
Variables (J : Z) (Qs : list Z) (r_max : Z) (self : t).
Hypothesis constructed : __init__ J Qs r_max = Ok self.

Local Abbreviation all_paths := (ScaleIndexer.all_paths self).

Lemma order_table (k : nat) (rows : list (list Z)) :
  nth_error (sc_paths self) k = Some rows ->
  NoDup rows /\ forall p, In p rows <-> admissible J Qs (Z.of_nat k + 1) p.
Proof.
  destruct (init_ok _ _ _ _ constructed) as (HJ & HQs & Hr & Hpaths & _).
  intros Hk.
  destruct (create_sc_paths_nth _ _ Hpaths) as [_ Hnth].
  destruct (Hnth k rows Hk) as [Hlt Hrows]. split.
  - eapply sc_paths_of_order_NoDup, Hrows.
  - rewrite <- HJ, <- HQs. apply sc_paths_of_order_spec; [lia | assumption].
Qed.

Lemma order_table_exists (n : Z) :
  1 <= n <= r_max ->
  exists rows, nth_error (sc_paths self) (Z.to_nat (n - 1)) = Some rows.
Proof.
  destruct (init_ok _ _ _ _ constructed) as (_ & _ & Hr & Hpaths & _).
  intros Hn. destruct (create_sc_paths_nth _ _ Hpaths) as [Hlen _].
  destruct (nth_error (sc_paths self) (Z.to_nat (n - 1))) as [rows|] eqn:Hrows;
    [eauto|].
  apply nth_error_None in Hrows. lia.
Qed.

Lemma sc_paths_length : length (sc_paths self) = Z.to_nat r_max.
Proof.
  destruct (init_ok _ _ _ _ constructed) as (_ & _ & Hr & Hpaths & _).
  destruct (create_sc_paths_nth _ _ Hpaths) as [Hlen _]. now rewrite Hlen, Hr.
Qed.

Lemma all_paths_In (p : list Z) :
  In p all_paths <-> exists n, 1 <= n <= r_max /\ admissible J Qs n p.
Proof.
  unfold ScaleIndexer.all_paths. rewrite in_concat. split.
  - intros (rows & Hrows & Hp). apply In_nth_error in Hrows as [k Hk].
    exists (Z.of_nat k + 1). split.
    + assert (k < length (sc_paths self))%nat by (apply nth_error_Some; congruence).
      rewrite sc_paths_length in H. lia.
    + now apply (order_table k rows Hk).
  - intros (n & Hn & Hp). destruct (order_table_exists n Hn) as [rows Hrows].
    exists rows. split; [eapply nth_error_In, Hrows|].
    apply (order_table _ rows Hrows).
    now replace (Z.of_nat (Z.to_nat (n - 1)) + 1) with n by lia.
Qed.

Lemma all_paths_NoDup : NoDup all_paths.
Proof.
  apply (NoDup_concat_by_length _ 1). intros k rows Hk.
  destruct (order_table k rows Hk) as [Hnd Hspec]. split; [assumption|].
  intros p Hp. apply Hspec in Hp as [Hlen _]. unfold len in Hlen. lia.
Qed.

Lemma all_paths_nonneg (p : list Z) :
  In p all_paths -> p <> [] /\ 0 <= last p 0.
Proof.
  intros Hp. apply all_paths_In in Hp as (n & Hn & Hlen & Hrg & _).
  assert (Hne : p <> []) by (intros ->; unfold len in Hlen; simpl in Hlen; lia).
  split; [assumption|].
  destruct (exists_last Hne) as (p' & j & ->). rewrite last_last.
  destruct (Hrg (length p') j) as (q & _ & Hj); [|lia].
  now rewrite nth_error_app2, Nat.sub_diag by lia.
Qed.

Lemma all_paths_nonempty : ~ In [] all_paths.
Proof. intros H. now apply all_paths_nonneg in H as [H _]. Qed.

Lemma p_coding_eq : p_coding self = fst (construct_path_coding_dicts self).
Proof.
  destruct (init_ok _ _ _ _ constructed) as (_ & _ & _ & _ & -> & _). reflexivity.
Qed.

Lemma p_decoding_eq : p_decoding self = snd (construct_path_coding_dicts self).
Proof.
  destruct (init_ok _ _ _ _ constructed) as (_ & _ & _ & _ & -> & _). reflexivity.
Qed.

(** [path_to_idx] leaves an enumerated path uncut. *)
Lemma path_to_idx_uncut (p : list Z) :
  p = [] \/ In p all_paths -> cut_at_sentinel p = p.
Proof.
  intros Hp. unfold cut_at_sentinel.
  destruct Hp as [->|Hp]; [reflexivity|].
  apply all_paths_nonneg in Hp as [_ Hlast].
  destruct (Z.eqb_spec (last p 0) (-1)); [lia|].
  now rewrite andb_false_r.
Qed.

Lemma path_to_idx_nil : path_to_idx self [] = Ok 0.
Proof.
  unfold path_to_idx. rewrite path_to_idx_uncut by auto. unfold od_getitem.
  rewrite p_coding_eq.
  now rewrite (coding_lookup_nil self all_paths_NoDup all_paths_nonempty).
Qed.

Lemma path_to_idx_nth (k : nat) (p : list Z) :
  nth_error all_paths k = Some p -> path_to_idx self p = Ok (Z.of_nat k).
Proof.
  intros Hk. unfold path_to_idx.
  rewrite path_to_idx_uncut by (right; eapply nth_error_In, Hk).
  unfold od_getitem. rewrite p_coding_eq.
  now rewrite (coding_lookup_nth self all_paths_NoDup all_paths_nonempty k p Hk).
Qed.

Lemma idx_to_path_nth (k : nat) (p : list Z) :
  nth_error all_paths k = Some p -> idx_to_path self (Z.of_nat k) true = Ok p.
Proof.
  intros Hk. unfold idx_to_path.
  destruct (Z.eqb_spec (Z.of_nat k) (-1)); [lia|].
  unfold od_getitem. rewrite p_decoding_eq.
  now rewrite (decoding_lookup_nth self all_paths_NoDup all_paths_nonempty k p Hk).
Qed.

Lemma decoding_lookup_assigned (idx : Z) :
  assigned self idx ->
  exists p, od_lookup Z.eq_dec (p_decoding self) idx = Some p /\
            (p = [] \/ In p all_paths) /\ path_to_idx self p = Ok idx.
Proof.
  unfold assigned. intros Hidx. rewrite p_decoding_eq.
  destruct (nth_error all_paths (Z.to_nat idx)) as [p|] eqn:Hp.
  - exists p.
    pose proof (decoding_lookup_nth self all_paths_NoDup all_paths_nonempty _ p Hp)
      as Hdec.
    pose proof (path_to_idx_nth _ p Hp) as Hcod.
    rewrite Z2Nat.id in Hdec, Hcod by lia.
    split; [assumption|]. split; [right; eapply nth_error_In, Hp | assumption].
  - apply nth_error_None in Hp. unfold len in Hidx.
    assert (idx = 0) by lia. subst idx.
    rewrite (decoding_lookup_out self all_paths_NoDup all_paths_nonempty)
      by (unfold len in *; lia).
    exists []. split; [reflexivity|]. split; [auto | apply path_to_idx_nil].
Qed.

Lemma decoding_lookup_unassigned (idx : Z) :
  ~ assigned self idx -> od_lookup Z.eq_dec (p_decoding self) idx = None.
Proof.
  unfold assigned. intros Hidx. rewrite p_decoding_eq.
  rewrite (decoding_lookup_out self all_paths_NoDup all_paths_nonempty)
    by lia.
  destruct (Z.eqb_spec idx 0); [lia | reflexivity].
Qed.

Lemma get_all_idces_In (idx : Z) : In idx (get_all_idces self) <-> assigned self idx.
Proof.
  unfold get_all_idces. split.
  - intros Hin.
    assert (Hdec : assigned self idx \/ ~ assigned self idx) by (unfold assigned; lia).
    destruct Hdec as [|Hn]; [assumption|]. exfalso.
    apply decoding_lookup_unassigned, od_lookup_None in Hn. contradiction.
  - intros Hidx. destruct (decoding_lookup_assigned idx Hidx) as (p & Hp & _).
    destruct (in_dec Z.eq_dec idx (od_keys (p_decoding self))) as [|Hn]; [assumption|].
    apply (od_lookup_None Z.eq_dec) in Hn. congruence.
Qed.

Lemma get_all_paths_eq : get_all_paths self = [] :: all_paths.
Proof.
  unfold get_all_paths. rewrite p_coding_eq.
  apply (coding_keys self all_paths_NoDup all_paths_nonempty).
Qed.

(** Decoding then coding gives the index back, on every assigned index. *)
Lemma roundtrip_index (idx : Z) :
  In idx (get_all_idces self) ->
  exists p, idx_to_path self idx true = Ok p /\ path_to_idx self p = Ok idx.
Proof.
  intros Hidx. apply get_all_idces_In in Hidx.
  destruct (decoding_lookup_assigned idx Hidx) as (p & Hp & _ & Hback).
  exists p. split; [|assumption]. unfold idx_to_path, od_getitem.
  destruct (Z.eqb_spec idx (-1)); [unfold assigned in Hidx; lia|].
  now rewrite Hp.
Qed.

(** Coding then decoding gives the path back, on every enumerated path. *)
Lemma roundtrip_enumerated (p : list Z) :
  In p all_paths ->
  exists idx, path_to_idx self p = Ok idx /\ idx_to_path self idx true = Ok p.
Proof.
  intros Hp. apply In_nth_error in Hp as [k Hk]. exists (Z.of_nat k).
  split; [now apply path_to_idx_nth | now apply idx_to_path_nth].
Qed.
End Constructed.


Lemma init_3_1 : __init__ 3 [1] 1 = Ok indexer_3_1.
Proof. reflexivity. Qed.

Lemma init_2_21 : __init__ 2 [2; 1] 2 = Ok indexer_2_21.
Proof. reflexivity. Qed.

Lemma init_0_1 : __init__ 0 [1] 1 = Ok indexer_0_1.
Proof. reflexivity. Qed.

(** ** Admissibility closure *)

(** C5. For every order [n] from 1 to [r_max], the table [sc_paths[n-1]]
    of a constructed indexer holds exactly the tuples [(j1, ..., jn)] with
    each [jk] in [range(J * Qs[k-1] + 1)] whose adjacent pairs satisfy
    [jk // Qs[k-1] < jk+1 // Qs[k]]: every such tuple is enumerated and no
    other one is. *)
Theorem C5_admissibility_closure (J : Z) (Qs : list Z) (r_max : Z) (self : t) (n : Z) :
  __init__ J Qs r_max = Ok self -> 1 <= n <= r_max ->
  exists rows, py_getitem (sc_paths self) (n - 1) = Ok rows /\
    forall p, In p rows <-> admissible J Qs n p.
Proof.
  intros Hinit Hn.
  destruct (order_table_exists _ _ _ _ Hinit n Hn) as [rows Hrows].
  exists rows. split.
  - rewrite py_getitem_nonneg by lia. now rewrite Hrows.
  - destruct (order_table _ _ _ _ Hinit _ _ Hrows) as [_ Hspec].
    now replace (Z.of_nat (Z.to_nat (n - 1)) + 1) with n in Hspec by lia.
Qed.

Lemma C5_admissibility_closure_witness :
  exists rows, py_getitem (sc_paths indexer_2_21) (2 - 1) = Ok rows /\
    forall p, In p rows <-> admissible 2 [2; 1] 2 p.
Proof.
  apply (C5_admissibility_closure 2 [2; 1] 2 indexer_2_21 2); [reflexivity | lia].
Defined.

(** ** Low-pass classification *)

Lemma is_low_pass_enumerated (J : Z) (Qs : list Z) (r_max : Z) (self : t)
      (n : Z) (p : list Z) :
  __init__ J Qs r_max = Ok self -> 1 <= n <= r_max -> admissible J Qs n p ->
  exists idx q, path_to_idx self p = Ok idx /\ idx_to_path self idx true = Ok p /\
    py_getitem Qs (n - 1) = Ok q /\ 0 <= last p 0 <= J * q /\
    is_low_pass self idx = Ok (last p 0 >=? J * q).
Proof.
  intros Hinit Hn Hadm.
  assert (Hin : In p (all_paths self))
    by (apply (all_paths_In _ _ _ _ Hinit); eauto).
  destruct (all_paths_nonneg _ _ _ _ Hinit p Hin) as [Hne _].
  destruct (roundtrip_enumerated _ _ _ _ Hinit p Hin) as (idx & Hcode & Hdecode).
  destruct Hadm as (Hlen & Hrg & _).
  destruct (exists_last Hne) as (p' & j & ->).
  unfold len in Hlen. rewrite length_app in Hlen; simpl in Hlen.
  destruct (Hrg (length p') j) as (q & Hq & Hj);
    [now rewrite nth_error_app2, Nat.sub_diag by lia|].
  exists idx, q. rewrite last_last.
  assert (HQ : py_getitem Qs (n - 1) = Ok q).
  { rewrite py_getitem_nonneg by lia.
    replace (Z.to_nat (n - 1)) with (length p') by lia. now rewrite Hq. }
  repeat split; try assumption; try lia.
  destruct (init_ok _ _ _ _ Hinit) as (HJ & HQs & _).
  unfold is_low_pass, r. rewrite Hdecode; simpl.
  rewrite py_getitem_last by (destruct p'; discriminate).
  rewrite last_last; simpl. unfold JQ. rewrite HQs, HJ.
  replace (len (p' ++ [j])) with n
    by (unfold len; rewrite length_app; simpl; lia).
  now rewrite HQ.
Qed.

(** C6. For every admissible path [p] of order [k], [is_low_pass] of the
    index of [p] is true exactly when the last coordinate of [p] equals
    [J * Qs[k-1]]. *)
Theorem C6_low_pass_correctness (J : Z) (Qs : list Z) (r_max : Z) (self : t)
        (k : Z) (p : list Z) :
  __init__ J Qs r_max = Ok self -> 1 <= k <= r_max -> admissible J Qs k p ->
  exists idx q, path_to_idx self p = Ok idx /\ py_getitem Qs (k - 1) = Ok q /\
    is_low_pass self idx = Ok (last p 0 =? J * q).
Proof.
  intros Hinit Hk Hadm.
  destruct (is_low_pass_enumerated _ _ _ _ _ _ Hinit Hk Hadm)
    as (idx & q & Hcode & _ & HQ & Hlast & Hlow).
  exists idx, q. repeat split; try assumption.
  rewrite Hlow. f_equal. rewrite Z.geb_leb.
  destruct (Z.leb_spec (J * q) (last p 0)), (Z.eqb_spec (last p 0) (J * q));
    (reflexivity || lia).
Qed.

Lemma C6_low_pass_correctness_witness :
  exists idx q, path_to_idx indexer_2_21 [1; 2] = Ok idx /\
    py_getitem [2; 1] (2 - 1) = Ok q /\
    is_low_pass indexer_2_21 idx = Ok (last [1; 2] 0 =? 2 * q).
Proof.
  apply (C6_low_pass_correctness 2 [2; 1] 2 indexer_2_21 2 [1; 2]);
    [reflexivity | lia |].
  apply (order_table _ _ _ _ init_2_21 1 _ eq_refl). simpl; tauto.
Defined.

(** C10. On an index that decodes to the empty path, [is_low_pass] returns
    no boolean: reading the last coordinate of the empty tuple raises an
    index error.  Index -1 is such an index in every instance. *)
Theorem C10_low_pass_of_empty_path (self : t) (idx : Z) :
  idx_to_path self idx true = Ok [] -> is_low_pass self idx = Raise IndexError.
Proof. intros H. unfold is_low_pass. now rewrite H. Qed.

Lemma C10_low_pass_of_empty_path_witness :
  is_low_pass indexer_3_1 (-1) = Raise IndexError.
Proof. apply (C10_low_pass_of_empty_path indexer_3_1 (-1)). reflexivity. Defined.

Lemma idx_to_path_minus_one (self : t) (squeeze : bool) :
  idx_to_path self (-1) squeeze =
  Ok (if squeeze return tuple_of squeeze then [] else []).
Proof. now destruct squeeze. Qed.

Lemma is_low_pass_minus_one (self : t) : is_low_pass self (-1) = Raise IndexError.
Proof. reflexivity. Qed.

(** ** Key errors *)

Lemma np_argmax_padding (real rest : list Z) :
  Forall (fun x => x <> -1) real ->
  np_argmax (map (fun x => x =? -1) (real ++ -1 :: rest)) = length real.
Proof.
  induction 1 as [|x real Hx _ IH]; simpl; [reflexivity|].
  destruct (Z.eqb_spec x (-1)); [contradiction|].
  rewrite IH. rewrite map_app, existsb_app. simpl. now rewrite orb_true_r.
Qed.

(** On a path padded with trailing -1, the cut of [path_to_idx] gives the
    real coordinates back. *)
Lemma cut_at_sentinel_padded (real : list Z) (n : nat) :
  Forall (fun x => x <> -1) real ->
  cut_at_sentinel (real ++ repeat (-1) n) = real.
Proof.
  intros Hreal. unfold cut_at_sentinel. destruct n as [|n].
  - simpl repeat. rewrite app_nil_r.
    destruct real as [|x real']; [reflexivity|].
    destruct (exists_last (l := x :: real')) as (l & a & Heq); [discriminate|].
    rewrite Heq, last_last. rewrite Heq in Hreal.
    apply Forall_app in Hreal as [_ Ha]. inversion Ha as [|? ? Hne _]; subst.
    destruct (Z.eqb_spec a (-1)); [contradiction|]. now rewrite andb_false_r.
  - assert (Hlast : last (real ++ repeat (-1) (S n)) 0 = -1).
    { replace (repeat (-1) (S n)) with (repeat (-1) n ++ [-1])
        by (now rewrite <- repeat_cons).
      now rewrite app_assoc, last_last. }
    rewrite Hlast. unfold len. rewrite length_app, repeat_length.
    destruct (Z.ltb_spec 0 (Z.of_nat (length real + S n))); [|lia].
    simpl andb. cbv iota. cbv zeta.
    change (repeat (-1) (S n)) with (-1 :: repeat (-1) n).
    rewrite np_argmax_padding by assumption.
    rewrite firstn_app, Nat.sub_diag, firstn_all. simpl. apply app_nil_r.
Qed.

Lemma path_to_idx_cases (self : t) (path : list Z) :
  (exists idx, path_to_idx self path = Ok idx) \/
  path_to_idx self path = Raise KeyError.
Proof.
  unfold path_to_idx, od_getitem.
  destruct (od_lookup _ _ _); eauto.
Qed.

(** C7. [path_to_idx] raises a key error exactly when the path, cut at its
    sentinel, is neither the empty path nor an enumerated admissible path,
    and returns an index otherwise; [idx_to_path] raises a key error on
    every index other than -1 that is not assigned; the error is not
    caught by the queries built on [idx_to_path], which raise it too. *)
Theorem C7_key_errors (J : Z) (Qs : list Z) (r_max : Z) (self : t) :
  __init__ J Qs r_max = Ok self ->
  (forall path,
      path_to_idx self path = Raise KeyError <->
      ~ (cut_at_sentinel path = [] \/
         exists n, 1 <= n <= r_max /\ admissible J Qs n (cut_at_sentinel path))) /\
  (forall path,
      (exists idx, path_to_idx self path = Ok idx) \/
      path_to_idx self path = Raise KeyError) /\
  (forall idx squeeze,
      idx <> -1 -> ~ In idx (get_all_idces self) ->
      idx_to_path self idx squeeze = Raise KeyError /\
      r self idx = Raise KeyError /\
      is_low_pass self idx = Raise KeyError) /\
  (forall idx, In idx (get_all_idces self) <-> assigned self idx).
Proof.
  intros Hinit.
  assert (Hunassigned : forall idx, ~ In idx (get_all_idces self) ->
            od_lookup Z.eq_dec (p_decoding self) idx = None).
  { intros idx Hidx. apply (decoding_lookup_unassigned _ _ _ _ Hinit).
    now rewrite <- (get_all_idces_In _ _ _ _ Hinit). }
  split; [|split; [|split]].
  - intros path. split.
    + intros Hraise [Hnil|Hadm].
      * unfold path_to_idx in Hraise. rewrite Hnil in Hraise.
        pose proof (path_to_idx_nil _ _ _ _ Hinit) as H0.
        unfold path_to_idx in H0. change (cut_at_sentinel []) with (@nil Z) in H0.
        congruence.
      * apply (all_paths_In _ _ _ _ Hinit), In_nth_error in Hadm as [k Hk].
        pose proof (path_to_idx_nth _ _ _ _ Hinit k _ Hk) as Hcode.
        unfold path_to_idx in Hraise, Hcode.
        rewrite (path_to_idx_uncut _ _ _ _ Hinit) in Hcode
          by (right; eapply nth_error_In, Hk).
        congruence.
    + intros Hout. unfold path_to_idx, od_getitem.
      destruct (od_lookup _ _ _) as [idx|] eqn:Hlook; [|reflexivity].
      exfalso. apply Hout.
      apply od_lookup_Some_In, (in_map fst) in Hlook. simpl in Hlook.
      change (In (cut_at_sentinel path) (get_all_paths self)) in Hlook.
      rewrite (get_all_paths_eq _ _ _ _ Hinit) in Hlook.
      destruct Hlook as [<-|Hin]; [now left | right].
      now apply (all_paths_In _ _ _ _ Hinit).
  - intros path. apply path_to_idx_cases.
  - intros idx squeeze Hidx Hout. apply Hunassigned in Hout.
    unfold is_low_pass, r, idx_to_path, od_getitem.
    destruct (Z.eqb_spec idx (-1)); [contradiction|].
    rewrite Hout. destruct squeeze; auto.
  - intros idx. apply (get_all_idces_In _ _ _ _ Hinit).
Qed.

Lemma C7_key_errors_witness :
  path_to_idx indexer_3_1 [5] = Raise KeyError /\
  idx_to_path indexer_3_1 4 true = Raise KeyError /\
  idx_to_path indexer_3_1 (-2) false = Raise KeyError /\
  is_low_pass indexer_3_1 4 = Raise KeyError.
Proof.
  destruct (C7_key_errors 3 [1] 1 indexer_3_1) as (Hpath & _ & Hidx & Hassigned);
    [reflexivity|].
  split; [|split; [|split]].
  - apply Hpath. intros [Hnil|(n & Hn & _ & Hrg & _)]; [discriminate|].
    destruct (Hrg 0%nat 5 eq_refl) as (q & Hq & Hbound).
    injection Hq as <-. lia.
  - apply Hidx; [lia|]. rewrite Hassigned. unfold assigned.
    change (len (all_paths indexer_3_1)) with 4. lia.
  - apply Hidx; [lia|]. rewrite Hassigned. unfold assigned.
    change (len (all_paths indexer_3_1)) with 4. lia.
  - apply (Hidx 4 true); [lia|]. rewrite Hassigned. unfold assigned.
    change (len (all_paths indexer_3_1)) with 4. lia.
Defined.

(** ** The order of the enumeration *)

Section SortedFacts.
Context {A : Type} (R : A -> A -> Prop).

Lemma StronglySorted_app (l1 l2 : list A) :
  StronglySorted R l1 -> StronglySorted R l2 ->
  (forall a b, In a l1 -> In b l2 -> R a b) ->
  StronglySorted R (l1 ++ l2).
Proof.
  induction 1 as [|a l1 Hl1 IH Ha]; intros Hl2 Hcross; simpl; [assumption|].
  constructor.
  - apply IH; [assumption|]. intros; apply Hcross; simpl; auto.
  - apply Forall_app. split; [assumption|].
    apply Forall_forall. intros b Hb. apply Hcross; simpl; auto.
Qed.

Lemma StronglySorted_filter (f : A -> bool) (l : list A) :
  StronglySorted R l -> StronglySorted R (filter f l).
Proof.
  induction 1 as [|a l Hl IH Ha]; simpl; [constructor|].
  destruct (f a); [|assumption]. constructor; [assumption|].
  rewrite Forall_forall in *. intros b Hb. apply filter_In in Hb as [Hb _]. auto.
Qed.

Lemma StronglySorted_nth_error (l : list A) (i j : nat) (a b : A) :
  StronglySorted R l -> (i < j)%nat ->
  nth_error l i = Some a -> nth_error l j = Some b -> R a b.
Proof.
  intros Hl; revert i j; induction Hl as [|x l Hl IH Hx]; intros i j Hij Hi Hj.
  - destruct i; discriminate.
  - destruct j as [|j]; [lia|]. simpl in Hj. destruct i as [|i]; simpl in Hi.
    + injection Hi as <-. rewrite Forall_forall in Hx.
      eapply Hx, nth_error_In, Hj.
    + apply (IH i j); [lia | assumption | assumption].
Qed.
End SortedFacts.

Lemma StronglySorted_map {A B : Type} (f : A -> B) (R : A -> A -> Prop)
      (S : B -> B -> Prop) (l : list A) :
  (forall a b, R a b -> S (f a) (f b)) ->
  StronglySorted R l -> StronglySorted S (map f l).
Proof.
  intros Hf. induction 1 as [|a l Hl IH Ha]; simpl; constructor; [assumption|].
  rewrite Forall_forall in *. intros b Hb.
  apply in_map_iff in Hb as (b' & <- & Hb'). auto.
Qed.

Lemma StronglySorted_weaken {A : Type} (R S : A -> A -> Prop) (l : list A) :
  (forall a b, In a l -> In b l -> R a b -> S a b) ->
  StronglySorted R l -> StronglySorted S l.
Proof.
  intros HRS Hl. induction Hl as [|a l Hl IH Ha]; constructor.
  - apply IH. intros; apply HRS; simpl; auto.
  - rewrite Forall_forall in *. intros b Hb. apply HRS; simpl; auto.
Qed.

Lemma seq_sorted (a n : nat) : StronglySorted lt (seq a n).
Proof.
  revert a; induction n as [|n IH]; intros a; simpl; constructor; [apply IH|].
  apply Forall_forall. intros b Hb. apply in_seq in Hb. lia.
Qed.

Lemma py_range2_sorted (lo hi : Z) : StronglySorted Z.lt (py_range2 lo hi).
Proof.
  unfold py_range2. eapply StronglySorted_map; [|apply seq_sorted].
  intros a b Hab; simpl. lia.
Qed.

Lemma tuple_ltb_cons (x : Z) (p q : list Z) :
  tuple_ltb (x :: p) (x :: q) = tuple_ltb p q.
Proof. simpl. now rewrite Z.ltb_irrefl, Z.eqb_refl. Qed.

Lemma tuple_ltb_irrefl (p : list Z) : tuple_ltb p p = false.
Proof. induction p as [|x p IH]; [reflexivity|]. now rewrite tuple_ltb_cons. Qed.

Lemma tuple_ltb_asym (p q : list Z) :
  tuple_ltb p q = true -> tuple_ltb q p = false.
Proof.
  revert q; induction p as [|x p IH]; intros [|y q]; simpl; try easy.
  destruct (Z.ltb_spec x y), (Z.ltb_spec y x), (Z.eqb_spec x y), (Z.eqb_spec y x);
    try lia; try easy. apply IH.
Qed.

(** The product of increasing ranges comes in lexicographic order. *)
Lemma product_sorted (ranges : list (list Z)) :
  Forall (StronglySorted Z.lt) ranges ->
  StronglySorted (fun p q => tuple_ltb p q = true) (product ranges).
Proof.
  induction 1 as [|rg rest Hrg _ IH]; simpl.
  - repeat constructor.
  - induction Hrg as [|x rg Hrg' IHrg Hx]; simpl; [constructor|].
    apply StronglySorted_app; [| assumption |].
    + eapply StronglySorted_map; [|exact IH].
      intros a b Hab. now rewrite tuple_ltb_cons.
    + intros a b Ha Hb. apply in_map_iff in Ha as (a' & <- & _).
      apply in_flat_map in Hb as (y & Hy & Hb).
      apply in_map_iff in Hb as (b' & <- & _).
      rewrite Forall_forall in Hx. specialize (Hx y Hy). simpl.
      destruct (Z.ltb_spec x y); [reflexivity | lia].
Qed.

Lemma compare_irrefl (p : list Z) : compare p p <> 1.
Proof.
  unfold compare. rewrite tuple_ltb_irrefl, Z.ltb_irrefl, andb_false_r. discriminate.
Qed.

Lemma compare_asym (p q : list Z) : compare p q = 1 -> compare q p <> 1.
Proof.
  unfold compare.
  destruct (Z.eqb_spec (len p) (len q)), (Z.eqb_spec (len q) (len p)),
    (Z.ltb_spec (len p) (len q)), (Z.ltb_spec (len q) (len p));
    try lia; simpl; try discriminate.
  rewrite !orb_false_r.
  destruct (tuple_ltb p q) eqn:Hpq; [|discriminate].
  now rewrite (tuple_ltb_asym _ _ Hpq).
Qed.

Lemma concat_sorted_by_length (tables : list (list (list Z))) (n : nat) :
  (forall k rows, nth_error tables k = Some rows ->
     StronglySorted (fun p q => tuple_ltb p q = true) rows /\
     forall p, In p rows -> length p = (n + k)%nat) ->
  StronglySorted (fun p q => compare p q = 1) (concat tables).
Proof.
  revert n; induction tables as [|rows rest IH]; intros n H; simpl.
  - constructor.
  - destruct (H 0%nat rows eq_refl) as [Hsorted Hlen].
    apply StronglySorted_app.
    + eapply StronglySorted_weaken; [|exact Hsorted].
      intros a b Ha Hb Hab. unfold compare, len.
      rewrite (Hlen a Ha), (Hlen b Hb), Z.eqb_refl, Hab. reflexivity.
    + apply (IH (S n)). intros k rows' Hk.
      destruct (H (S k) rows' Hk) as [Hsorted' Hlen']. split; [assumption|].
      intros p Hp. rewrite (Hlen' p Hp). lia.
    + intros a b Ha Hb. apply in_concat in Hb as (rows' & Hrows' & Hb).
      apply In_nth_error in Hrows' as [k Hk].
      destruct (H (S k) rows' Hk) as [_ Hlen'].
      unfold compare, len. rewrite (Hlen a Ha), (Hlen' b Hb).
      destruct (Z.ltb_spec (Z.of_nat (n + 0)) (Z.of_nat (n + S k))); [|lia].
      now rewrite orb_true_r.
Qed.

Lemma sc_paths_of_order_sorted (self : t) (n : Z) (rows : list (list Z)) :
  sc_paths_of_order self n = Ok rows ->
  StronglySorted (fun p q => tuple_ltb p q = true) rows.
Proof.
  intros H. unfold sc_paths_of_order in H.
  apply bind_ok in H as (ranges & Hranges & Hfilter).
  rewrite (filterM_filter _ _ _ Hfilter).
  apply StronglySorted_filter, product_sorted.
  apply mapM_ok in Hranges. clear Hfilter.
  induction Hranges as [|o rg os rgs Ho _ IH]; [constructor|].
  constructor; [|assumption].
  unfold range_of in Ho. destruct (JQ self (o + 1)); simpl in Ho; [|discriminate].
  injection Ho as <-. apply py_range2_sorted.
Qed.

(** The enumeration is increasing for the order on tuples that [checks]
    defines: shorter first, then lexicographic. *)
Lemma all_paths_sorted (J : Z) (Qs : list Z) (r_max : Z) (self : t) :
  __init__ J Qs r_max = Ok self ->
  StronglySorted (fun p q => compare p q = 1) (all_paths self).
Proof.
  intros Hinit. apply (concat_sorted_by_length _ 1). intros k rows Hk.
  destruct (init_ok _ _ _ _ Hinit) as (_ & _ & _ & Hpaths & _).
  destruct (create_sc_paths_nth _ _ Hpaths) as [_ Hnth].
  destruct (Hnth k rows Hk) as [_ Hrows]. split.
  - eapply sc_paths_of_order_sorted, Hrows.
  - intros p Hp.
    destruct (order_table _ _ _ _ Hinit k rows Hk) as [_ Hspec].
    apply Hspec in Hp as [Hlen _]. unfold len in Hlen. lia.
Qed.

(** Among the enumerated paths the numbering is monotone: a shorter path
    has the smaller index, and at equal lengths the lexicographically
    smaller one has. *)
Lemma enumerated_numbering_monotone (J : Z) (Qs : list Z) (r_max : Z) (self : t)
      (p q : list Z) (i j : Z) :
  __init__ J Qs r_max = Ok self ->
  In p (all_paths self) -> In q (all_paths self) ->
  path_to_idx self p = Ok i -> path_to_idx self q = Ok j ->
  (i < j <-> compare p q = 1).
Proof.
  intros Hinit Hp Hq Hi Hj.
  apply In_nth_error in Hp as [kp Hkp]. apply In_nth_error in Hq as [kq Hkq].
  rewrite (path_to_idx_nth _ _ _ _ Hinit _ _ Hkp) in Hi.
  rewrite (path_to_idx_nth _ _ _ _ Hinit _ _ Hkq) in Hj.
  injection Hi as <-. injection Hj as <-.
  pose proof (all_paths_sorted _ _ _ _ Hinit) as Hsorted.
  split.
  - intros Hlt. apply (StronglySorted_nth_error _ _ kp kq _ _ Hsorted);
      [lia | assumption | assumption].
  - intros Hcmp. destruct (Nat.lt_trichotomy kp kq) as [Hlt|[Heq|Hgt]]; [lia | |].
    + subst kq. assert (p = q) by congruence. subst q.
      now apply compare_irrefl in Hcmp.
    + exfalso. apply (compare_asym _ _ Hcmp).
      now apply (StronglySorted_nth_error _ _ kq kp _ _ Hsorted).
Qed.

(** The comparison of [checks] never answers a negative number, so the
    sort keyed by it moves nothing. *)
Lemma sorted_by_compare_is_identity (paths : list (list Z)) :
  sorted_cmp_to_key compare paths = paths.
Proof.
  unfold sorted_cmp_to_key, stable_sort.
  assert (Hins : forall x acc,
             insert_sorted (fun a b => compare a b <? 0) x acc = acc ++ [x]).
  { intros x acc. induction acc as [|y acc IH]; simpl; [reflexivity|].
    unfold compare at 1. destruct (_ || _); simpl; now rewrite IH. }
  assert (Hfold : forall l acc,
             fold_left (fun acc x => insert_sorted (fun a b => compare a b <? 0) x acc)
                       l acc = acc ++ l).
  { induction l as [|x l IH]; intros acc; simpl; [now rewrite app_nil_r|].
    now rewrite IH, Hins, <- app_assoc. }
  apply Hfold.
Qed.

(** ** Numbering *)

(** C2 on [ScaleIndexer(3, [1], 1)].  The empty path is coded 0 and index
    -1 decodes to the empty tuple, but index 0 does not decode to the empty
    tuple: the order-1 paths are numbered from 0, not from 1, so that the
    first of them, (0,), takes index 0 over from the empty path. *)
Theorem C2_index_zero_is_not_reserved :
  __init__ 3 [1] 1 = Ok indexer_3_1 /\
  path_to_idx indexer_3_1 [] = Ok 0 /\
  idx_to_path indexer_3_1 (-1) true = Ok [] /\
  idx_to_path indexer_3_1 0 true = Ok [0] /\
  idx_to_path indexer_3_1 0 true <> Ok [] /\
  mapM (path_to_idx indexer_3_1) [[0]; [1]; [2]; [3]] = Ok [0; 1; 2; 3] /\
  mapM (path_to_idx indexer_3_1) [[0]; [1]; [2]; [3]] <> Ok [1; 2; 3; 4].
Proof. repeat split; try reflexivity; discriminate. Qed.

(** C4 on its own scenario.  [ScaleIndexer(3, [1], 1)] has [JQ(1) = 3] and
    the order-1 paths (0,), (1,), (2,), (3,); [is_low_pass(1)] is false and
    [r(3)] is 1; but the four paths have the indices 0, 1, 2, 3 and not
    1, 2, 3, 4, index 0 is shared with the empty path, and
    [is_low_pass(4)] raises a key error instead of answering true. *)
Theorem C4_scenario_is_numbered_from_zero :
  __init__ 3 [1] 1 = Ok indexer_3_1 /\
  JQ indexer_3_1 1 = Ok 3 /\
  sc_paths indexer_3_1 = [[[0]; [1]; [2]; [3]]] /\
  is_low_pass indexer_3_1 1 = Ok false /\
  r indexer_3_1 3 = Ok 1 /\
  mapM (path_to_idx indexer_3_1) [[0]; [1]; [2]; [3]] = Ok [0; 1; 2; 3] /\
  mapM (path_to_idx indexer_3_1) [[0]; [1]; [2]; [3]] <> Ok [1; 2; 3; 4] /\
  path_to_idx indexer_3_1 [] = path_to_idx indexer_3_1 [0] /\
  is_low_pass indexer_3_1 4 = Raise KeyError /\
  is_low_pass indexer_3_1 4 <> Ok true.
Proof. repeat split; try reflexivity; discriminate. Qed.

(** C1 at the empty path of [ScaleIndexer(3, [1], 1)]: the empty path and
    the first order-1 path (0,) are both coded 0, and 0 decodes to (0,), so
    coding and then decoding the empty path does not return it. *)
Theorem C1_empty_path_round_trip :
  __init__ 3 [1] 1 = Ok indexer_3_1 /\
  path_to_idx indexer_3_1 [] = Ok 0 /\
  path_to_idx indexer_3_1 [0] = Ok 0 /\
  idx_to_path indexer_3_1 0 true = Ok [0] /\
  (idx <- path_to_idx indexer_3_1 [] ;; idx_to_path indexer_3_1 idx true) <> Ok [].
Proof. repeat split; try reflexivity; discriminate. Qed.

(** C3 at the empty path and (0,) of [ScaleIndexer(3, [1], 1)]: both are
    coded paths, the first is shorter than the second, and their indices
    are equal. *)
Theorem C3_empty_path_not_below :
  __init__ 3 [1] 1 = Ok indexer_3_1 /\
  In [] (get_all_paths indexer_3_1) /\ In [0] (get_all_paths indexer_3_1) /\
  len (@nil Z) < len [0] /\
  path_to_idx indexer_3_1 [] = Ok 0 /\ path_to_idx indexer_3_1 [0] = Ok 0 /\
  ~ (forall i j, path_to_idx indexer_3_1 [] = Ok i ->
                 path_to_idx indexer_3_1 [0] = Ok j -> i < j).
Proof.
  repeat split; try reflexivity; try (simpl; tauto).
  intros H. specialize (H 0 0 eq_refl eq_refl). lia.
Qed.

(** ** The collapse of order 2 onto order 1 *)

Lemma init_4_11 : __init__ 4 [1; 1] 2 = Ok indexer_4_11.
Proof. reflexivity. Qed.

(** C9. For [ScaleIndexer(4, [1, 1], 2)], the distinct first coordinates of
    the order-2 paths are exactly the order-1 paths whose last coordinate
    is below [JQ(1)], that is the order-1 paths that do not end with the
    low pass; they are the two tables that [checks] compares. *)
Theorem C9_collapse_4_11 :
  __init__ 4 [1; 1] 2 = Ok indexer_4_11 /\
  exists order1 order2 truncated mask jq,
    py_getitem (sc_paths indexer_4_11) 0 = Ok order1 /\
    py_getitem (sc_paths indexer_4_11) 1 = Ok order2 /\
    np_drop_last_column order2 = Ok truncated /\
    py_getitem (low_pass_mask indexer_4_11) 0 = Ok mask /\
    JQ indexer_4_11 1 = Ok jq /\
    np_unique_rows truncated = filter (fun p => last p 0 <? jq) order1 /\
    np_unique_rows truncated = np_select_rows order1 (map negb mask) /\
    np_unique_rows truncated = [[0]; [1]; [2]; [3]] /\
    truncated = map (firstn 1) order2.
Proof.
  split; [reflexivity|].
  exists [[0]; [1]; [2]; [3]; [4]],
         [[0; 1]; [0; 2]; [0; 3]; [0; 4]; [1; 2]; [1; 3]; [1; 4]; [2; 3]; [2; 4];
          [3; 4]],
         [[0]; [0]; [0]; [0]; [1]; [1]; [1]; [2]; [2]; [3]],
         [false; false; false; false; true], 4.
  repeat split; reflexivity.
Qed.

(** ** Construction without validation *)

Lemma range_of_missing_density (self : t) :
  range_of self (len (Qs self)) = Raise IndexError.
Proof.
  unfold range_of, JQ. pose proof (len_nonneg (Qs self)).
  rewrite py_getitem_nonneg by lia.
  replace (Z.to_nat (len (Qs self) + 1 - 1)) with (length (Qs self))
    by (unfold len; lia).
  now rewrite (proj2 (nth_error_None (Qs self) (length (Qs self))) (le_n _)).
Qed.

Lemma mapM_raise_same {A B : Type} (f : A -> result B) (l : list A) (e : exn) :
  (forall y, In y l -> (exists b, f y = Ok b) \/ f y = Raise e) ->
  (exists x, In x l /\ f x = Raise e) ->
  mapM f l = Raise e.
Proof.
  induction l as [|y ys IH]; simpl; intros Hall (x & Hin & Hx); [contradiction|].
  destruct (Hall y (or_introl eq_refl)) as [[b Hb]|Hy]; [|now rewrite Hy].
  rewrite Hb; simpl. destruct Hin as [->|Hin]; [congruence|].
  rewrite IH; [reflexivity | intros; apply Hall; auto | eauto].
Qed.

Lemma range_of_cases (self : t) (o : Z) :
  0 <= o ->
  (o < len (Qs self) -> exists rg, range_of self o = Ok rg) /\
  (len (Qs self) <= o -> range_of self o = Raise IndexError).
Proof.
  intros Ho. unfold range_of, JQ, len. rewrite py_getitem_nonneg by lia.
  replace (Z.to_nat (o + 1 - 1)) with (Z.to_nat o) by lia.
  destruct (nth_error (Qs self) (Z.to_nat o)) as [q|] eqn:Hq; simpl.
  - split; [eauto|]. intros Hle.
    assert (Z.to_nat o < length (Qs self))%nat by (apply nth_error_Some; congruence).
    lia.
  - split; [|reflexivity]. intros Hlt. apply nth_error_None in Hq. lia.
Qed.

Lemma sc_paths_of_order_missing_density (self : t) (n : Z) :
  len (Qs self) < n -> sc_paths_of_order self n = Raise IndexError.
Proof.
  intros Hn. pose proof (len_nonneg (Qs self)) as Hlen.
  unfold sc_paths_of_order. rewrite (mapM_raise_same _ _ IndexError); [reflexivity | |].
  - intros o Ho. apply py_range_In in Ho.
    destruct (range_of_cases self o) as [Hok Hraise]; [lia|].
    destruct (Z.lt_ge_cases o (len (Qs self))); [left | right]; auto.
  - exists (len (Qs self)). split; [apply py_range_In; lia|].
    apply range_of_missing_density.
Qed.

Lemma all_increasing_total (Qs : list Z) (pairs : list (Z * Z)) (m : nat) :
  Forall (fun q => q <> 0) Qs -> (m + length pairs < length Qs)%nat ->
  exists b, all_increasing Qs (Z.of_nat m) pairs = Ok b.
Proof.
  intros Hnz. revert m; induction pairs as [|[i j] rest IH]; intros m Hm; simpl.
  - eauto.
  - simpl in Hm. rewrite Forall_forall in Hnz.
    rewrite py_getitem_nonneg by lia. rewrite Nat2Z.id.
    destruct (nth_error Qs m) as [qi|] eqn:Hqi;
      [|apply nth_error_None in Hqi; lia].
    simpl. unfold py_floordiv at 1.
    destruct (Z.eqb_spec qi 0) as [->|_];
      [exfalso; eapply Hnz; [eapply nth_error_In, Hqi | reflexivity]|].
    simpl. rewrite py_getitem_nonneg by lia.
    replace (Z.to_nat (Z.of_nat m + 1)) with (S m) by lia.
    destruct (nth_error Qs (S m)) as [qj|] eqn:Hqj;
      [|apply nth_error_None in Hqj; lia].
    simpl. unfold py_floordiv.
    destruct (Z.eqb_spec qj 0) as [->|_];
      [exfalso; eapply Hnz; [eapply nth_error_In, Hqj | reflexivity]|].
    simpl. destruct (i / qi <? j / qj); [|eauto].
    replace (Z.of_nat m + 1) with (Z.of_nat (S m)) by lia.
    apply IH. lia.
Qed.

Lemma condition_total (self : t) (p : list Z) :
  Forall (fun q => q <> 0) (Qs self) -> (length p <= length (Qs self))%nat ->
  exists b, condition self p = Ok b.
Proof.
  intros Hnz Hlen. unfold condition.
  destruct (len p <=? r_max self); [|eauto].
  destruct p as [|x p]; [simpl; eauto|].
  apply (all_increasing_total _ _ 0 Hnz).
  rewrite length_combine. simpl tl. simpl in Hlen. lia.
Qed.

Lemma sc_paths_of_order_total (self : t) (n : Z) :
  Forall (fun q => q <> 0) (Qs self) -> 0 <= n <= len (Qs self) ->
  exists rows, sc_paths_of_order self n = Ok rows.
Proof.
  intros Hnz Hn. unfold sc_paths_of_order.
  destruct (mapM_total (range_of self) (py_range n)) as [ranges Hranges].
  { intros o Ho. apply py_range_In in Ho.
    destruct (range_of_cases self o) as [Hok _]; [lia|]. apply Hok. lia. }
  rewrite Hranges; simpl. apply filterM_total. intros p Hp.
  apply condition_total; [assumption|].
  rewrite (product_length _ _ Hp), (proj1 (ranges_nth _ _ _ Hranges)).
  unfold len in Hn. lia.
Qed.

(** With fewer densities than orders the enumeration raises; the exception
    is the index error of the missing density unless a zero density makes
    an earlier order divide by zero. *)
Lemma create_sc_paths_missing_density (self : t) :
  len (Qs self) < r_max self ->
  exists e, create_sc_paths self = Raise e /\
            (Forall (fun q => q <> 0) (Qs self) -> e = IndexError).
Proof.
  intros Hlt. pose proof (len_nonneg (Qs self)) as Hlen.
  assert (Hin : In (len (Qs self) + 1) (py_range2 1 (r_max self + 1)))
    by (apply py_range2_In; lia).
  assert (Hraise : sc_paths_of_order self (len (Qs self) + 1) = Raise IndexError)
    by (apply sc_paths_of_order_missing_density; lia).
  destruct (mapM_raise _ _ _ _ Hin Hraise) as [e He].
  exists e. split; [exact He|]. intros Hnz.
  unfold create_sc_paths in He.
  rewrite (mapM_raise_same _ _ IndexError) in He; [congruence | | eauto].
  intros n Hn. apply py_range2_In in Hn.
  destruct (Z.le_gt_cases n (len (Qs self))).
  - left. apply sc_paths_of_order_total; [assumption | lia].
  - right. apply sc_paths_of_order_missing_density. lia.
Qed.

(** C8, as the code has it.  The constructor has no validation step.  With
    fewer density entries than [r_max] it does fail, with the exception
    that [create_sc_paths] raises while enumerating (the index error of the
    missing density when no density is zero); a non-positive [r_max] is
    accepted and leaves an indexer that knows the empty path only; a zero
    octave count is accepted too. *)
Theorem C8_construction_without_validation :
  (forall J Qs r_max,
      len Qs < r_max ->
      exists e, create_sc_paths (mk J Qs r_max [] [] [] [] []) = Raise e /\
                __init__ J Qs r_max = Raise e /\
                (Forall (fun q => q <> 0) Qs -> e = IndexError)) /\
  (forall J Qs r_max,
      r_max <= 0 -> __init__ J Qs r_max = Ok (indexer_order_0 J Qs r_max)) /\
  __init__ 0 [1] 1 = Ok indexer_0_1.
Proof.
  split; [|split].
  - intros J Qs r_max Hlt.
    destruct (create_sc_paths_missing_density (mk J Qs r_max [] [] [] [] []) Hlt)
      as (e & He & Hkind).
    exists e. split; [assumption|]. split; [|exact Hkind].
    unfold __init__. now rewrite He.
  - intros J Qs r_max Hle.
    unfold __init__, create_sc_paths, create_sc_idces, checks, py_range2; simpl.
    replace (Z.to_nat (r_max + 1 - 1)) with 0%nat by lia. simpl.
    destruct (Z.leb_spec 2 r_max); [lia|].
    destruct (forallb _ Qs); reflexivity.
  - reflexivity.
Qed.

Lemma C8_construction_without_validation_witness :
  __init__ 3 [1] 2 = Raise IndexError /\
  __init__ 3 [1] 0 = Ok (indexer_order_0 3 [1] 0) /\
  __init__ (-3) [] (-1) = Ok (indexer_order_0 (-3) [] (-1)).
Proof.
  destruct C8_construction_without_validation as (Hfew & Hzero & _).
  split; [|split; apply Hzero; lia].
  destruct (Hfew 3 [1] 2) as (e & _ & Hinit & Hkind); [unfold len; simpl; lia|].
  rewrite Hinit. f_equal. apply Hkind. repeat constructor; lia.
Defined.

(** C8 as stated fails: octave count 0 with densities [1] and maximal
    order 1, and maximal order 0, are both accepted, and the indexers they
    yield answer queries. *)
Lemma C8_counterexample :
  __init__ 0 [1] 1 = Ok indexer_0_1 /\
  path_to_idx indexer_0_1 [0] = Ok 0 /\
  is_low_pass indexer_0_1 0 = Ok true /\
  __init__ 1 [1] 0 = Ok (indexer_order_0 1 [1] 0) /\
  path_to_idx (indexer_order_0 1 [1] 0) [] = Ok 0.
Proof. repeat split; reflexivity. Qed.

(** ** Further properties of the queries *)

(** X1. Coding an enumerated path and decoding the index gives the path
    back: for an admissible path [p] of an order between 1 and [r_max],
    [idx_to_path(path_to_idx(p))] is [p]. *)
Theorem X1_round_trip_of_enumerated_path (J : Z) (Qs : list Z) (r_max : Z)
        (self : t) (k : Z) (p : list Z) :
  __init__ J Qs r_max = Ok self -> 1 <= k <= r_max -> admissible J Qs k p ->
  exists idx, path_to_idx self p = Ok idx /\ idx_to_path self idx true = Ok p.
Proof.
  intros Hinit Hk Hadm. apply (roundtrip_enumerated _ _ _ _ Hinit).
  apply (all_paths_In _ _ _ _ Hinit). eauto.
Qed.

Lemma X1_round_trip_of_enumerated_path_witness :
  exists idx, path_to_idx indexer_2_21 [3; 2] = Ok idx /\
              idx_to_path indexer_2_21 idx true = Ok [3; 2].
Proof.
  apply (X1_round_trip_of_enumerated_path 2 [2; 1] 2 indexer_2_21 2 [3; 2]);
    [reflexivity | lia |].
  apply (order_table _ _ _ _ init_2_21 1 _ eq_refl). simpl; tauto.
Defined.

(** X2. The order returned by [r] is the length of the path: for an
    admissible path of order [k], [r(path_to_idx(p))] is [k]. *)
Theorem X2_order_of_enumerated_path (J : Z) (Qs : list Z) (r_max : Z)
        (self : t) (k : Z) (p : list Z) :
  __init__ J Qs r_max = Ok self -> 1 <= k <= r_max -> admissible J Qs k p ->
  exists idx, path_to_idx self p = Ok idx /\ r self idx = Ok k.
Proof.
  intros Hinit Hk Hadm.
  assert (Hin : In p (all_paths self))
    by (apply (all_paths_In _ _ _ _ Hinit); eauto).
  destruct (roundtrip_enumerated _ _ _ _ Hinit p Hin) as (idx & Hcode & Hdecode).
  exists idx. split; [assumption|]. unfold r. rewrite Hdecode; simpl.
  now destruct Hadm as [-> _].
Qed.

Lemma X2_order_of_enumerated_path_witness :
  exists idx, path_to_idx indexer_2_21 [3; 2] = Ok idx /\ r indexer_2_21 idx = Ok 2.
Proof.
  apply (X2_order_of_enumerated_path 2 [2; 1] 2 indexer_2_21 2 [3; 2]);
    [reflexivity | lia |].
  apply (order_table _ _ _ _ init_2_21 1 _ eq_refl). simpl; tauto.
Defined.

(** X3. Decoding an assigned index and coding the path gives the index
    back: for every index listed by [get_all_idces],
    [path_to_idx(idx_to_path(idx))] is [idx]. *)
Theorem X3_round_trip_of_assigned_index (J : Z) (Qs : list Z) (r_max : Z)
        (self : t) (idx : Z) :
  __init__ J Qs r_max = Ok self -> In idx (get_all_idces self) ->
  exists p, idx_to_path self idx true = Ok p /\ path_to_idx self p = Ok idx.
Proof. intros Hinit. apply (roundtrip_index _ _ _ _ Hinit). Qed.

Lemma X3_round_trip_of_assigned_index_witness :
  exists p, idx_to_path indexer_2_21 7 true = Ok p /\
            path_to_idx indexer_2_21 p = Ok 7.
Proof.
  apply (X3_round_trip_of_assigned_index 2 [2; 1] 2 indexer_2_21 7);
    [reflexivity | simpl; tauto].
Defined.

(** X4. Among the enumerated paths the numbering follows the order on
    tuples: a shorter path has the smaller index, and of two paths of the
    same length the lexicographically smaller one has the smaller index. *)
Theorem X4_numbering_is_monotone (J : Z) (Qs : list Z) (r_max : Z) (self : t)
        (p q : list Z) (i j : Z) :
  __init__ J Qs r_max = Ok self ->
  In p (concat (sc_paths self)) -> In q (concat (sc_paths self)) ->
  path_to_idx self p = Ok i -> path_to_idx self q = Ok j ->
  (len p < len q -> i < j) /\
  (len p = len q -> (i < j <-> tuple_ltb p q = true)).
Proof.
  intros Hinit Hp Hq Hi Hj.
  pose proof (enumerated_numbering_monotone _ _ _ _ p q i j Hinit Hp Hq Hi Hj)
    as Hmono.
  unfold compare in Hmono. split.
  - intros Hlt. apply Hmono.
    destruct (Z.ltb_spec (len p) (len q)); [|lia]. now rewrite orb_true_r.
  - intros Heq. rewrite Hmono, Heq, Z.eqb_refl, Z.ltb_irrefl, orb_false_r.
    simpl. destruct (tuple_ltb p q); simpl; split; congruence.
Qed.

Lemma X4_numbering_is_monotone_witness :
  (len [4] < len [0; 1] -> 4 < 5) /\
  (len [4] = len [0; 1] -> (4 < 5 <-> tuple_ltb [4] [0; 1] = true)).
Proof.
  apply (X4_numbering_is_monotone 2 [2; 1] 2 indexer_2_21 [4] [0; 1] 4 5);
    try reflexivity; simpl; tauto.
Defined.

(** ** The low-pass masks *)

Lemma low_pass_mask_nth (self : t) (masks : list (list bool)) (k : nat)
      (rows : list (list Z)) :
  compute_low_pass_mask self = Ok masks -> (k < 3)%nat ->
  nth_error (sc_paths self) k = Some rows ->
  rows <> [] /\
  exists q, nth_error (Qs self) k = Some q /\
    nth_error masks k = Some (map (fun p => last p 0 =? J self * q) rows).
Proof.
  intros Hmask Hk Hrows. apply mapM_ok in Hmask.
  destruct (Forall2_nth_error _ _ _ k (Z.of_nat k, rows) Hmask) as (mask & Hnth & Hm).
  { rewrite enumerate_nth_error, nth_error_firstn.
    destruct (Nat.ltb_spec k 3); [|lia]. now rewrite Hrows. }
  simpl in Hm. unfold np_last_column, np_2d in Hm.
  destruct rows as [|row rows']; [discriminate|].
  split; [discriminate|]. simpl in Hm. unfold JQ in Hm.
  rewrite py_getitem_nonneg in Hm by lia.
  replace (Z.to_nat (Z.of_nat k + 1 - 1)) with k in Hm by lia.
  destruct (nth_error (Qs self) k) as [q|]; simpl in Hm; [|discriminate].
  injection Hm as <-. exists q. split; [reflexivity|].
  rewrite Hnth. simpl. now rewrite map_map.
Qed.

Lemma low_pass_mask_length (self : t) (masks : list (list bool)) :
  compute_low_pass_mask self = Ok masks ->
  length masks = Nat.min 3 (length (sc_paths self)).
Proof.
  intros Hmask. apply mapM_ok, Forall2_length in Hmask. rewrite <- Hmask.
  rewrite <- (length_map fst), enumerate_fst.
  unfold py_range. rewrite py_range2_length. unfold len.
  rewrite length_firstn. lia.
Qed.

(** X5. The masks cover the first three orders only, one boolean per
    path: the mask of order [k+1] marks the paths of [sc_paths[k]] whose
    last coordinate is [J * Qs[k]], and no order of a constructed indexer
    that has a mask is empty. *)
Theorem X5_low_pass_mask_contents (J : Z) (Qs : list Z) (r_max : Z) (self : t) :
  __init__ J Qs r_max = Ok self ->
  length (low_pass_mask self) = Nat.min 3 (Z.to_nat r_max) /\
  forall k rows, (k < 3)%nat -> nth_error (sc_paths self) k = Some rows ->
    rows <> [] /\
    exists q, nth_error Qs k = Some q /\
      nth_error (low_pass_mask self) k =
      Some (map (fun p => last p 0 =? J * q) rows).
Proof.
  intros Hinit.
  destruct (init_ok _ _ _ _ Hinit) as (HJ & HQs & _ & _ & _ & _ & Hmask & _).
  split.
  - rewrite (low_pass_mask_length _ _ Hmask).
    now rewrite (sc_paths_length _ _ _ _ Hinit).
  - intros k rows Hk Hrows. rewrite <- HJ, <- HQs.
    now apply low_pass_mask_nth.
Qed.

Lemma X5_low_pass_mask_contents_witness :
  length (low_pass_mask indexer_2_21) = Nat.min 3 (Z.to_nat 2) /\
  nth_error (low_pass_mask indexer_2_21) 1 =
  Some (map (fun p => last p 0 =? 2 * 1)
            [[0; 1]; [0; 2]; [1; 1]; [1; 2]; [2; 2]; [3; 2]]).
Proof.
  destruct (X5_low_pass_mask_contents 2 [2; 1] 2 indexer_2_21) as [Hlen Hnth];
    [reflexivity|].
  split; [exact Hlen|].
  destruct (Hnth 1%nat [[0; 1]; [0; 2]; [1; 1]; [1; 2]; [2; 2]; [3; 2]])
    as (_ & q & Hq & Hmask); [lia | reflexivity |].
  injection Hq as <-. exact Hmask.
Defined.

(** X6. The masks agree with [is_low_pass]: at each of the first three
    orders, the mask bit of a path is the answer of [is_low_pass] on the
    index of that path. *)
Theorem X6_mask_agrees_with_is_low_pass (J : Z) (Qs : list Z) (r_max : Z)
        (self : t) (k i : nat) (rows : list (list Z)) (p : list Z) :
  __init__ J Qs r_max = Ok self -> (k < 3)%nat ->
  nth_error (sc_paths self) k = Some rows -> nth_error rows i = Some p ->
  exists mask idx b,
    nth_error (low_pass_mask self) k = Some mask /\
    nth_error mask i = Some b /\
    path_to_idx self p = Ok idx /\ is_low_pass self idx = Ok b.
Proof.
  intros Hinit Hk Hrows Hp.
  destruct (init_ok _ _ _ _ Hinit) as (HJ & HQs & _ & _ & _ & _ & Hmask & _).
  destruct (low_pass_mask_nth _ _ _ _ Hmask Hk Hrows) as (_ & q & Hq & Hnth).
  rewrite HJ, HQs in *.
  assert (Hadm : admissible J Qs (Z.of_nat k + 1) p).
  { apply (order_table _ _ _ _ Hinit k rows Hrows). eapply nth_error_In, Hp. }
  assert (Hrange : 1 <= Z.of_nat k + 1 <= r_max).
  { assert (k < length (sc_paths self))%nat by (apply nth_error_Some; congruence).
    rewrite (sc_paths_length _ _ _ _ Hinit) in H. lia. }
  destruct (is_low_pass_enumerated _ _ _ _ _ _ Hinit Hrange Hadm)
    as (idx & q' & Hcode & _ & HQ & Hlast & Hlow).
  rewrite py_getitem_nonneg in HQ by lia.
  replace (Z.to_nat (Z.of_nat k + 1 - 1)) with k in HQ by lia.
  rewrite Hq in HQ. injection HQ as <-.
  exists (map (fun p => last p 0 =? J * q) rows), idx, (last p 0 =? J * q).
  repeat split; try assumption.
  - rewrite nth_error_map, Hp. reflexivity.
  - rewrite Hlow. f_equal. rewrite Z.geb_leb.
    destruct (Z.leb_spec (J * q) (last p 0)), (Z.eqb_spec (last p 0) (J * q));
      (reflexivity || lia).
Qed.

Lemma X6_mask_agrees_with_is_low_pass_witness :
  exists mask idx b,
    nth_error (low_pass_mask indexer_2_21) 1 = Some mask /\
    nth_error mask 3 = Some b /\
    path_to_idx indexer_2_21 [1; 2] = Ok idx /\
    is_low_pass indexer_2_21 idx = Ok b.
Proof.
  apply (X6_mask_agrees_with_is_low_pass 2 [2; 1] 2 indexer_2_21 1 3
           [[0; 1]; [0; 2]; [1; 1]; [1; 2]; [2; 2]; [3; 2]] [1; 2]);
    [reflexivity | lia | reflexivity | reflexivity].
Defined.

(** ** The first order *)

Lemma filterM_all_true {A : Type} (f : A -> result bool) (l : list A) :
  (forall x, In x l -> f x = Ok true) -> filterM f l = Ok l.
Proof.
  induction l as [|x xs IH]; simpl; intros H; [reflexivity|].
  rewrite (H x (or_introl eq_refl)); simpl.
  rewrite IH by (intros; apply H; auto). reflexivity.
Qed.

(** The table of order 1 lists the coordinates 0, ..., [J * Qs[0]] in
    increasing order. *)
Lemma sc_paths_of_order_1 (self : t) (q : Z) :
  1 <= r_max self -> nth_error (Qs self) 0 = Some q ->
  sc_paths_of_order self 1 =
  Ok (map (fun j => [j]) (py_range (J self * q + 1))).
Proof.
  intros Hr Hq. unfold sc_paths_of_order.
  change (py_range 1) with [0]. simpl mapM. unfold range_of, JQ.
  change (0 + 1 - 1) with 0. unfold py_getitem. simpl.
  destruct (Qs self) as [|q0 Qs'] eqn:HQs; [discriminate|].
  simpl in Hq. injection Hq as ->. simpl.
  replace (flat_map (fun x => [[x]]) (py_range (J self * q + 1)))
    with (map (fun j => [j]) (py_range (J self * q + 1)))
    by (induction (py_range (J self * q + 1)); simpl; congruence).
  apply filterM_all_true. intros p Hp.
  apply in_map_iff in Hp as (j & <- & _).
  unfold condition. change (len [j]) with 1.
  destruct (Z.leb_spec 1 (r_max self)); [reflexivity | lia].
Qed.

Lemma first_table (J : Z) (Qs : list Z) (r_max : Z) (self : t) :
  __init__ J Qs r_max = Ok self -> 1 <= r_max ->
  exists q rest, nth_error Qs 0 = Some q /\ 0 <= J * q /\
    sc_paths self = map (fun j => [j]) (py_range (J * q + 1)) :: rest.
Proof.
  intros Hinit Hr.
  destruct (init_ok _ _ _ _ Hinit) as (HJ & HQs & Hrmax & Hpaths & _ & _ & Hmask & _).
  destruct (order_table_exists _ _ _ _ Hinit 1) as [rows Hrows]; [lia|].
  change (Z.to_nat (1 - 1)) with 0%nat in Hrows.
  destruct (low_pass_mask_nth _ _ _ _ Hmask (Nat.lt_0_succ 2) Hrows)
    as (Hne & q & Hq & _).
  destruct (create_sc_paths_nth _ _ Hpaths) as [_ Hnth].
  destruct (Hnth 0%nat rows Hrows) as [_ Horder]. simpl in Horder.
  rewrite (sc_paths_of_order_1 self q) in Horder by (rewrite ?Hrmax; assumption).
  injection Horder as <-. rewrite HQs in Hq. rewrite HJ in *.
  destruct (sc_paths self) as [|rows1 rest]; [discriminate|].
  simpl in Hrows. injection Hrows as ->.
  exists q, rest. repeat split; try assumption.
  destruct (Z.le_gt_cases 0 (J * q)); [assumption|]. exfalso. apply Hne.
  unfold py_range, py_range2.
  now replace (Z.to_nat (J * q + 1 - 0)) with 0%nat by lia.
Qed.

(** X7. An order-1 path is coded by its own coordinate: in a constructed
    indexer with [r_max >= 1], [J * Qs[0]] is not negative and, for every
    [j] from 0 to [J * Qs[0]], [path_to_idx((j,))] is [j], index [j]
    decodes to [(j,)] and has order 1, and [is_low_pass(j)] tells whether
    [j] is [J * Qs[0]]. *)
Theorem X7_first_order_index_is_coordinate (J : Z) (Qs : list Z) (r_max : Z)
        (self : t) :
  __init__ J Qs r_max = Ok self -> 1 <= r_max ->
  exists q, nth_error Qs 0 = Some q /\ 0 <= J * q /\
    forall j, 0 <= j <= J * q ->
      path_to_idx self [j] = Ok j /\
      idx_to_path self j true = Ok [j] /\
      r self j = Ok 1 /\
      is_low_pass self j = Ok (j =? J * q).
Proof.
  intros Hinit Hr.
  destruct (first_table _ _ _ _ Hinit Hr) as (q & rest & Hq & Hpos & Htables).
  exists q. split; [assumption|]. split; [assumption|]. intros j Hj.
  assert (Hnth : nth_error (all_paths self) (Z.to_nat j) = Some [j]).
  { unfold all_paths. rewrite Htables. simpl.
    rewrite nth_error_app1
      by (rewrite length_map; unfold py_range; rewrite py_range2_length; lia).
    rewrite nth_error_map. unfold py_range.
    rewrite py_range2_nth_error by lia. simpl. f_equal. f_equal. lia. }
  pose proof (path_to_idx_nth _ _ _ _ Hinit _ _ Hnth) as Hcode.
  pose proof (idx_to_path_nth _ _ _ _ Hinit _ _ Hnth) as Hdecode.
  rewrite Z2Nat.id in Hcode, Hdecode by lia.
  split; [assumption|]. split; [assumption|].
  destruct (init_ok _ _ _ _ Hinit) as (HJ & HQs & _).
  unfold is_low_pass, r. rewrite Hdecode. cbn [bind].
  change (len [j]) with 1. split; [reflexivity|].
  change (py_getitem [j] (-1)) with (Ok j). cbn [bind].
  unfold JQ. rewrite HQs, HJ. change (1 - 1) with 0.
  rewrite py_getitem_nonneg by lia.
  change (Z.to_nat 0) with 0%nat. rewrite Hq. cbn [bind]. f_equal.
  rewrite Z.geb_leb.
  destruct (Z.leb_spec (J * q) j), (Z.eqb_spec j (J * q)); (reflexivity || lia).
Qed.

Lemma X7_first_order_index_is_coordinate_witness :
  path_to_idx indexer_2_21 [4] = Ok 4 /\
  idx_to_path indexer_2_21 4 true = Ok [4] /\
  r indexer_2_21 4 = Ok 1 /\
  is_low_pass indexer_2_21 4 = Ok (4 =? 2 * 2).
Proof.
  destruct (X7_first_order_index_is_coordinate 2 [2; 1] 2 indexer_2_21)
    as (q & Hq & _ & Hall); [reflexivity | lia |].
  injection Hq as <-. apply Hall. lia.
Defined.

(** ** The index tables *)

Lemma mapM_of_Forall2 {A B : Type} (f : A -> result B) (l : list A) (l' : list B) :
  Forall2 (fun x y => f x = Ok y) l l' -> mapM f l = Ok l'.
Proof.
  induction 1 as [|x y l l' Hxy _ IH]; simpl; [reflexivity|].
  now rewrite Hxy, IH.
Qed.

Lemma mapM_concat {A B : Type} (f : A -> result B) (ls : list (list A))
      (rs : list (list B)) :
  Forall2 (fun l r => mapM f l = Ok r) ls rs ->
  mapM f (concat ls) = Ok (concat rs).
Proof.
  induction 1 as [|l r ls rs Hlr _ IH]; simpl; [reflexivity|].
  apply mapM_of_Forall2, Forall2_app.
  - now apply mapM_ok.
  - now apply mapM_ok.
Qed.

Lemma sc_idces_tables (self : t) (idces : list (list Z)) :
  length (sc_paths self) = Z.to_nat (r_max self) ->
  create_sc_idces self = Ok idces ->
  Forall2 (fun paths idx => mapM (path_to_idx self) paths = Ok idx)
          (sc_paths self) idces.
Proof.
  intros Hlen Hidces. apply mapM_ok in Hidces.
  apply Forall2_of_nth_error.
  - apply Forall2_length in Hidces. rewrite <- Hidces, py_range2_length. lia.
  - intros k paths idx Hpaths Hidx.
    destruct (Forall2_nth_error_r _ _ _ _ _ Hidces Hidx) as (n & Hn & Hrun).
    assert (Hk : (k < Z.to_nat (r_max self))%nat)
      by (rewrite <- Hlen; apply nth_error_Some; congruence).
    rewrite py_range2_nth_error in Hn by lia.
    assert (Hn' : n = Z.of_nat k + 1).
    { apply (f_equal (fun o => match o with Some z => z | None => 0 end)) in Hn.
      cbv beta iota in Hn. lia. }
    cbv beta in Hrun. rewrite Hn' in Hrun.
    rewrite py_getitem_nonneg in Hrun by lia.
    replace (Z.to_nat (Z.of_nat k + 1 - 1)) with k in Hrun by lia.
    now rewrite Hpaths in Hrun.
Qed.

(** X8. The index tables follow the path tables: [sc_idces] has, for each
    order, the indices of the paths of [sc_paths] in the same positions,
    and read order after order the index tables are 0, 1, 2, ... without a
    gap, so each order owns a contiguous block of indices. *)
Theorem X8_index_tables_are_contiguous (J : Z) (Qs : list Z) (r_max : Z) (self : t) :
  __init__ J Qs r_max = Ok self ->
  Forall2 (fun paths idx =>
             length paths = length idx /\
             mapM (path_to_idx self) paths = Ok idx)
          (sc_paths self) (sc_idces self) /\
  concat (sc_idces self) = py_range (len (concat (sc_paths self))).
Proof.
  intros Hinit.
  destruct (init_ok _ _ _ _ Hinit) as (_ & _ & Hr & _ & _ & Hidces & _).
  assert (Htables : Forall2 (fun paths idx => mapM (path_to_idx self) paths = Ok idx)
                            (sc_paths self) (sc_idces self)).
  { apply sc_idces_tables; [|assumption].
    now rewrite (sc_paths_length _ _ _ _ Hinit), Hr. }
  split.
  - eapply Forall2_impl; [|exact Htables]. intros paths idx H. split; [|assumption].
    apply mapM_ok, Forall2_length in H. assumption.
  - pose proof (mapM_concat _ _ _ Htables) as Hall.
    assert (Hrange : mapM (path_to_idx self) (concat (sc_paths self)) =
                     Ok (py_range (len (concat (sc_paths self))))).
    { apply mapM_of_Forall2, Forall2_of_nth_error.
      - unfold py_range. rewrite py_range2_length. unfold len. lia.
      - intros k p i Hp Hi.
        assert (Hk : (k < length (concat (sc_paths self)))%nat)
          by (apply nth_error_Some; congruence).
        unfold py_range in Hi. rewrite py_range2_nth_error in Hi
          by (unfold len; lia).
        injection Hi as <-. simpl.
        now apply (path_to_idx_nth _ _ _ _ Hinit). }
    congruence.
Qed.

Lemma X8_index_tables_are_contiguous_witness :
  concat (sc_idces indexer_2_21) = py_range (len (concat (sc_paths indexer_2_21))).
Proof.
  apply (X8_index_tables_are_contiguous 2 [2; 1] 2 indexer_2_21). reflexivity.
Defined.

(** ** The listings of paths and indices *)

Lemma decoding_of_enumeration (self : t) :
  NoDup (all_paths self) -> ~ In [] (all_paths self) -> all_paths self <> [] ->
  snd (construct_path_coding_dicts self) = enumerate (all_paths self).
Proof.
  intros Hnd Hne Hsome. rewrite (decoding_eq self Hnd Hne).
  pose proof (enumerate_fst (all_paths self)) as Hkeys.
  pose proof (enumerate_nth_error (all_paths self) 0) as Hhead.
  destruct (all_paths self) as [|p0 rest] eqn:Hall; [contradiction|].
  simpl in Hhead.
  destruct (enumerate (p0 :: rest)) as [|[i0 x0] items] eqn:Hitems;
    [discriminate|].
  simpl in Hhead. injection Hhead as -> ->.
  unfold od_update. simpl.
  destruct (Z.eq_dec 0 0) as [_|Hneq]; [|contradiction].
  change (fold_left _ items [(0, p0)])
    with (od_update Z.eq_dec [(0, p0)] items).
  assert (Hdistinct : NoDup (0 :: map fst items)).
  { simpl in Hkeys. rewrite Hkeys. apply py_range2_NoDup. }
  inversion Hdistinct as [|? ? Hfresh Hrest]; subst.
  rewrite od_update_fresh; [reflexivity | assumption |].
  intros k Hk. simpl. intros [<-|[]]. contradiction.
Qed.

(** X9. [get_all_paths] lists the empty path and then the enumerated
    paths in order; [get_all_idces] lists 0, 1, 2, ... in order, one index
    per enumerated path (and index 0 alone when nothing is enumerated).
    So as soon as a path is enumerated the list of paths is one longer
    than the list of indices. *)
Theorem X9_listings (J : Z) (Qs : list Z) (r_max : Z) (self : t) :
  __init__ J Qs r_max = Ok self ->
  get_all_paths self = [] :: concat (sc_paths self) /\
  get_all_idces self = py_range (Z.max 1 (len (concat (sc_paths self)))) /\
  (concat (sc_paths self) <> [] ->
   length (get_all_paths self) = S (length (get_all_idces self))).
Proof.
  intros Hinit.
  pose proof (get_all_paths_eq _ _ _ _ Hinit) as Hpaths.
  assert (Hidces : get_all_idces self =
                   py_range (Z.max 1 (len (concat (sc_paths self))))).
  { unfold get_all_idces. rewrite (p_decoding_eq _ _ _ _ Hinit).
    pose proof (all_paths_NoDup _ _ _ _ Hinit) as Hnd.
    pose proof (all_paths_nonempty _ _ _ _ Hinit) as Hne.
    destruct (concat (sc_paths self)) as [|p0 rest] eqn:Hall.
    - rewrite (decoding_eq self Hnd Hne). unfold all_paths. rewrite Hall.
      reflexivity.
    - rewrite (decoding_of_enumeration self Hnd Hne)
        by (unfold all_paths; rewrite Hall; discriminate).
      unfold od_keys, all_paths. rewrite enumerate_fst, Hall.
      f_equal. unfold len. simpl length. lia. }
  split; [assumption|]. split; [assumption|].
  intros Hsome. rewrite Hpaths, Hidces.
  unfold py_range. rewrite py_range2_length. cbn [length]. unfold len.
  assert (0 < length (concat (sc_paths self)))%nat
    by (destruct (concat (sc_paths self)); [contradiction | cbn [length]; lia]).
  unfold all_paths. lia.
Qed.

Lemma X9_listings_witness :
  get_all_paths indexer_2_21 = [] :: concat (sc_paths indexer_2_21) /\
  get_all_idces indexer_2_21 =
  py_range (Z.max 1 (len (concat (sc_paths indexer_2_21)))) /\
  length (get_all_paths indexer_2_21) = S (length (get_all_idces indexer_2_21)).
Proof.
  destruct (X9_listings 2 [2; 1] 2 indexer_2_21) as (Hp & Hi & Hlen);
    [reflexivity|].
  split; [exact Hp|]. split; [exact Hi|]. apply Hlen. discriminate.
Defined.

(** ** Padded rows and sentinels *)

Lemma assigned_path_length (J : Z) (Qs : list Z) (r_max : Z) (self : t)
      (idx : Z) (p : list Z) :
  __init__ J Qs r_max = Ok self -> In idx (get_all_idces self) ->
  od_lookup Z.eq_dec (p_decoding self) idx = Some p ->
  (length p <= Z.to_nat r_max)%nat.
Proof.
  intros Hinit Hidx Hp. apply (get_all_idces_In _ _ _ _ Hinit) in Hidx.
  destruct (decoding_lookup_assigned _ _ _ _ Hinit idx Hidx)
    as (p' & Hp' & [->|Hin] & _); rewrite Hp in Hp'; injection Hp' as ->.
  - simpl. lia.
  - apply (all_paths_In _ _ _ _ Hinit) in Hin as (n & Hn & Hlen & _).
    unfold len in Hlen. lia.
Qed.

(** X10. With [squeeze] false, [idx_to_path] of an assigned index is the
    squeezed path followed by missing values, and the row has exactly
    [r_max] cells (none when [r_max] is not positive); index -1 is the
    exception, answered by the empty tuple without padding. *)
Theorem X10_padded_rows (J : Z) (Qs : list Z) (r_max : Z) (self : t) (idx : Z) :
  __init__ J Qs r_max = Ok self -> In idx (get_all_idces self) ->
  exists p row,
    idx_to_path self idx true = Ok p /\
    idx_to_path self idx false = Ok row /\
    row = map Some p ++ repeat None (Z.to_nat r_max - length p) /\
    length row = Z.to_nat r_max /\
    idx_to_path self (-1) false = Ok [].
Proof.
  intros Hinit Hidx.
  pose proof (proj1 (get_all_idces_In _ _ _ _ Hinit idx) Hidx) as Hassigned.
  destruct (decoding_lookup_assigned _ _ _ _ Hinit idx Hassigned)
    as (p & Hp & _ & _).
  pose proof (assigned_path_length _ _ _ _ _ _ Hinit Hidx Hp) as Hlen.
  destruct (init_ok _ _ _ _ Hinit) as (_ & _ & Hr & _).
  exists p, (map Some p ++ repeat None (Z.to_nat r_max - length p)).
  unfold idx_to_path, od_getitem.
  destruct (Z.eqb_spec idx (-1)) as [->|_];
    [unfold assigned in Hassigned; lia|].
  rewrite Hp. cbn [bind]. rewrite Hr.
  replace (Z.to_nat (r_max - len p)) with (Z.to_nat r_max - length p)%nat
    by (unfold len; lia).
  repeat split.
  rewrite length_app, length_map, repeat_length. lia.
Qed.

Lemma X10_padded_rows_witness :
  exists p row,
    idx_to_path indexer_2_21 3 true = Ok p /\
    idx_to_path indexer_2_21 3 false = Ok row /\
    row = map Some p ++ repeat None (Z.to_nat 2 - length p) /\
    length row = Z.to_nat 2 /\
    idx_to_path indexer_2_21 (-1) false = Ok [].
Proof.
  apply (X10_padded_rows 2 [2; 1] 2 indexer_2_21 3); [reflexivity | simpl; tauto].
Defined.

(** X11. Trailing sentinels are ignored: a path whose real coordinates
    hold no -1, followed by any number of -1, is looked up as the real
    coordinates alone, in every instance. *)
Theorem X11_trailing_sentinels_ignored (self : t) (real : list Z) (n : nat) :
  Forall (fun x => x <> -1) real ->
  path_to_idx self (real ++ repeat (-1) n) = path_to_idx self real.
Proof.
  intros Hreal. unfold path_to_idx.
  rewrite (cut_at_sentinel_padded real n Hreal).
  pose proof (cut_at_sentinel_padded real 0 Hreal) as Hcut.
  simpl in Hcut. rewrite app_nil_r in Hcut. now rewrite Hcut.
Qed.

Lemma X11_trailing_sentinels_ignored_witness :
  path_to_idx indexer_2_21 ([3] ++ repeat (-1) 1) = path_to_idx indexer_2_21 [3].
Proof.
  apply (X11_trailing_sentinels_ignored indexer_2_21 [3] 1).
  repeat constructor. lia.
Defined.

Lemma all_paths_coordinates (J : Z) (Qs : list Z) (r_max : Z) (self : t)
      (p : list Z) (j : Z) :
  __init__ J Qs r_max = Ok self -> In p (all_paths self) -> In j p -> 0 <= j.
Proof.
  intros Hinit Hp Hj.
  apply (all_paths_In _ _ _ _ Hinit) in Hp as (n & _ & _ & Hrg & _).
  apply In_nth_error in Hj as [k Hk].
  destruct (Hrg k j Hk) as (q & _ & Hbound). lia.
Qed.

(** X12. A sentinel inside a path is not cut: when a path holds a -1 but
    does not end with one, [path_to_idx] looks the path up as it is and,
    no enumerated path holding a negative coordinate, raises a key
    error. *)
Theorem X12_inner_sentinel_is_a_key_error (J : Z) (Qs : list Z) (r_max : Z)
        (self : t) (path : list Z) :
  __init__ J Qs r_max = Ok self ->
  In (-1) path -> last path 0 <> -1 ->
  cut_at_sentinel path = path /\ path_to_idx self path = Raise KeyError.
Proof.
  intros Hinit Hin Hlast.
  assert (Hcut : cut_at_sentinel path = path).
  { unfold cut_at_sentinel.
    destruct (Z.eqb_spec (last path 0) (-1)); [contradiction|].
    now rewrite andb_false_r. }
  split; [assumption|].
  unfold path_to_idx, od_getitem. rewrite Hcut, (p_coding_eq _ _ _ _ Hinit).
  rewrite (proj2 (coding_lookup_None self (all_paths_NoDup _ _ _ _ Hinit)
                    (all_paths_nonempty _ _ _ _ Hinit) path)); [reflexivity|].
  split.
  - intros ->. contradiction.
  - intros Hp. pose proof (all_paths_coordinates _ _ _ _ _ _ Hinit Hp Hin). lia.
Qed.

Lemma X12_inner_sentinel_is_a_key_error_witness :
  cut_at_sentinel [0; -1; 2] = [0; -1; 2] /\
  path_to_idx indexer_2_21 [0; -1; 2] = Raise KeyError.
Proof.
  apply (X12_inner_sentinel_is_a_key_error 2 [2; 1] 2 indexer_2_21 [0; -1; 2]);
    [reflexivity | simpl; tauto | simpl; lia].
Defined.

(** ** Bounds of [JQ] *)

(** X13. [JQ(r)] multiplies [J] by the density at position [r - 1] for
    [r] from 1 to [len(Qs)]; for [r] from [1 - len(Qs)] to 0 the negative
    position wraps around and the density is taken from the end of [Qs]
    without any error; everywhere else [JQ] raises an index error. *)
Theorem X13_JQ_bounds (self : t) (n : Z) :
  (1 <= n <= len (Qs self) ->
   JQ self n = Ok (J self * nth (Z.to_nat (n - 1)) (Qs self) 0)) /\
  (- len (Qs self) < n <= 0 ->
   JQ self n = Ok (J self * nth (Z.to_nat (len (Qs self) + n - 1)) (Qs self) 0)) /\
  (len (Qs self) < n \/ n <= - len (Qs self) -> JQ self n = Raise IndexError).
Proof.
  unfold JQ, py_getitem, len. repeat split.
  - intros Hn. destruct (Z.ltb_spec (n - 1) 0); [lia|].
    destruct (Z.ltb_spec (n - 1) 0); [lia|].
    rewrite (nth_error_nth' (Qs self) 0) by lia. reflexivity.
  - intros Hn. destruct (Z.ltb_spec (n - 1) 0); [|lia].
    destruct (Z.ltb_spec (Z.of_nat (length (Qs self)) + (n - 1)) 0); [lia|].
    rewrite (nth_error_nth' (Qs self) 0) by lia.
    replace (Z.of_nat (length (Qs self)) + (n - 1))
      with (Z.of_nat (length (Qs self)) + n - 1) by lia.
    reflexivity.
  - intros [Hn|Hn].
    + destruct (Z.ltb_spec (n - 1) 0); [lia|].
      destruct (Z.ltb_spec (n - 1) 0); [lia|].
      now rewrite (proj2 (nth_error_None (Qs self) (Z.to_nat (n - 1)))) by lia.
    + destruct (Z.ltb_spec (n - 1) 0); [|lia].
      destruct (Z.ltb_spec (Z.of_nat (length (Qs self)) + (n - 1)) 0);
        [reflexivity | lia].
Qed.

Lemma X13_JQ_bounds_witness :
  JQ indexer_2_21 2 = Ok (2 * 1) /\
  JQ indexer_2_21 0 = Ok (2 * 1) /\
  JQ indexer_2_21 (-1) = Ok (2 * 2) /\
  JQ indexer_2_21 3 = Raise IndexError /\
  JQ indexer_2_21 (-2) = Raise IndexError.
Proof.
  split; [apply (proj1 (X13_JQ_bounds indexer_2_21 2)); unfold len; simpl; lia|].
  split; [apply (proj1 (proj2 (X13_JQ_bounds indexer_2_21 0))); unfold len; simpl; lia|].
  split; [apply (proj1 (proj2 (X13_JQ_bounds indexer_2_21 (-1)))); unfold len; simpl; lia|].
  split; apply (proj2 (proj2 (X13_JQ_bounds indexer_2_21 _))); unfold len; simpl; lia.
Defined.

(** ** The ordering check *)

(** X14. The sort of [checks] never moves a path: the comparison function
    answers a boolean, which [cmp_to_key] reads as 0 or 1 and never as a
    negative number, so sorting any list of paths by it gives the list
    back, whatever its order. *)
Theorem X14_sort_by_compare_is_identity (paths : list (list Z)) :
  sorted_cmp_to_key compare paths = paths.
Proof. apply sorted_by_compare_is_identity. Qed.

(** ** Parents of enumerated paths *)

Lemma removelast_nth_error {A : Type} (l : list A) (i : nat) (x : A) :
  nth_error (removelast l) i = Some x ->
  nth_error l i = Some x /\ (S i < length l)%nat.
Proof.
  rewrite removelast_firstn_len, nth_error_firstn.
  destruct (Nat.ltb_spec i (pred (length l))) as [Hlt|_]; [|discriminate].
  intros Hi. split; [assumption | lia].
Qed.

Lemma removelast_length {A : Type} (l : list A) :
  length (removelast l) = pred (length l).
Proof. rewrite removelast_firstn_len, length_firstn. lia. Qed.

(** Admissibility passes to the path without its last coordinate. *)
Lemma admissible_removelast (J : Z) (Qs : list Z) (k : Z) (p : list Z) :
  2 <= k -> admissible J Qs k p -> admissible J Qs (k - 1) (removelast p).
Proof.
  intros Hk (Hlen & Hrg & Hinc). split; [|split].
  - unfold len in *. rewrite removelast_length. lia.
  - intros i j Hi. apply removelast_nth_error in Hi as [Hi _]. eauto.
  - intros i a b qa qb Ha Hb.
    apply removelast_nth_error in Ha as [Ha _].
    apply removelast_nth_error in Hb as [Hb _]. eauto.
Qed.

(** X15. The parent of an enumerated path is enumerated and is not a low
    pass: with positive densities, cutting the last coordinate of an
    admissible path of order [k >= 2] gives a path that has an index, has
    order [k - 1], and for which [is_low_pass] answers false. *)
Theorem X15_parent_is_enumerated_and_not_low_pass (J : Z) (Qs : list Z)
        (r_max : Z) (self : t) (k : Z) (p : list Z) :
  __init__ J Qs r_max = Ok self -> Forall (fun q => 0 < q) Qs ->
  2 <= k <= r_max -> admissible J Qs k p ->
  exists idx, path_to_idx self (removelast p) = Ok idx /\
              r self idx = Ok (k - 1) /\
              is_low_pass self idx = Ok false.
Proof.
  intros Hinit Hpos Hk Hadm.
  assert (Hparent : admissible J Qs (k - 1) (removelast p))
    by (apply admissible_removelast; [lia | assumption]).
  destruct (is_low_pass_enumerated _ _ _ _ (k - 1) _ Hinit ltac:(lia) Hparent)
    as (idx & q & Hcode & Hdecode & HQ & _ & Hlow).
  exists idx. split; [assumption|]. split.
  { unfold r. rewrite Hdecode. cbn [bind]. now destruct Hparent as [-> _]. }
  rewrite Hlow. f_equal.
  destruct Hadm as (Hlen & Hrg & Hinc). unfold len in Hlen.
  destruct (exists_last (l := p)) as (l & b & ->);
    [intros ->; simpl in Hlen; lia|].
  rewrite removelast_last in *. rewrite length_app in Hlen. simpl in Hlen.
  destruct (exists_last (l := l)) as (l' & a & ->);
    [intros ->; simpl in Hlen; lia|].
  rewrite last_last. rewrite length_app in Hlen. simpl in Hlen.
  assert (Ha : nth_error ((l' ++ [a]) ++ [b]) (length l') = Some a).
  { rewrite <- app_assoc. now rewrite nth_error_app2, Nat.sub_diag by lia. }
  assert (Hb : nth_error ((l' ++ [a]) ++ [b]) (S (length l')) = Some b).
  { rewrite nth_error_app2 by (rewrite length_app; cbn [length]; lia).
    rewrite length_app. cbn [length].
    now replace (S (length l') - (length l' + 1))%nat with 0%nat by lia. }
  destruct (Hrg _ _ Ha) as (qa & Hqa & _).
  destruct (Hrg _ _ Hb) as (qb & Hqb & Hbound).
  pose proof (Hinc _ _ _ _ _ Ha Hb Hqa Hqb) as Hlt.
  rewrite py_getitem_nonneg in HQ by lia.
  replace (Z.to_nat (k - 1 - 1)) with (length l') in HQ by lia.
  rewrite Hqa in HQ. injection HQ as <-.
  rewrite Forall_forall in Hpos.
  assert (Hqa_pos : 0 < qa) by (eapply Hpos, nth_error_In, Hqa).
  assert (Hqb_pos : 0 < qb) by (eapply Hpos, nth_error_In, Hqb).
  assert (Hb_oct : b / qb <= J)
    by (apply Z.div_le_upper_bound; [assumption | lia]).
  pose proof (Z.mul_succ_div_gt a qa Hqa_pos) as Ha_oct.
  rewrite Z.geb_leb. destruct (Z.leb_spec (J * qa) a); [|reflexivity]. nia.
Qed.

Lemma X15_parent_is_enumerated_and_not_low_pass_witness :
  exists idx, path_to_idx indexer_2_21 (removelast [3; 2]) = Ok idx /\
              r indexer_2_21 idx = Ok (2 - 1) /\
              is_low_pass indexer_2_21 idx = Ok false.
Proof.
  apply (X15_parent_is_enumerated_and_not_low_pass 2 [2; 1] 2 indexer_2_21 2 [3; 2]);
    [reflexivity | repeat constructor | lia |].
  apply (order_table _ _ _ _ init_2_21 1 _ eq_refl). simpl; tauto.
Defined.

(** ** The admissibility test as a method *)

(** X16. [condition] answers false on a path longer than [r_max] without
    reading the densities; on a path no longer than [r_max] and than
    [Qs], with no zero density, it answers whether every adjacent pair is
    strictly increasing after division by the densities of its two
    orders.  It never looks at the bounds of the coordinates. *)
Theorem X16_condition_decides_increase (self : t) (p : list Z) :
  (r_max self < len p -> condition self p = Ok false) /\
  (len p <= r_max self -> len p <= len (Qs self) ->
   Forall (fun q => q <> 0) (Qs self) ->
   exists b, condition self p = Ok b /\ (b = true <-> increasing (Qs self) p)).
Proof.
  split.
  - intros Hlong. unfold condition.
    destruct (Z.leb_spec (len p) (r_max self)); [lia | reflexivity].
  - intros Hshort Hlen Hnz.
    destruct (condition_total self p Hnz) as [b Hb]; [unfold len in Hlen; lia|].
    exists b. split; [assumption|].
    unfold condition in Hb.
    destruct (Z.leb_spec (len p) (r_max self)); [|lia].
    destruct b; split; try reflexivity; try discriminate.
    + intros _ k a c qa qc Ha Hc Hqa Hqc.
      destruct (all_increasing_true _ _ 0 Hb k a c) as (qa' & qc' & Hqa' & Hqc' & Hlt).
      { now apply adjacent_pairs_nth_error. }
      change (0 + k)%nat with k in Hqa', Hqc'.
      rewrite Hqa in Hqa'. rewrite Hqc in Hqc'.
      injection Hqa' as <-. injection Hqc' as <-. exact Hlt.
    + intros Hinc. exfalso.
      apply (all_increasing_false _ _ 0) in Hb
        as (k & a & c & qa & qc & Hk & Hqa & Hqc & Hnot).
      apply adjacent_pairs_nth_error in Hk as [Ha Hc].
      change (0 + k)%nat with k in Hqa, Hqc.
      apply Hnot. eapply Hinc; eassumption.
Qed.

Lemma X16_condition_decides_increase_witness :
  condition indexer_2_21 [0; 1; 2] = Ok false /\
  exists b, condition indexer_2_21 [100; 200] = Ok b /\
            (b = true <-> increasing [2; 1] [100; 200]).
Proof.
  split.
  - apply (proj1 (X16_condition_decides_increase indexer_2_21 [0; 1; 2])).
    unfold len; simpl; lia.
  - apply (proj2 (X16_condition_decides_increase indexer_2_21 [100; 200]));
      [unfold len; simpl; lia | unfold len; simpl; lia |].
    repeat constructor; simpl; lia.
Defined.

(** ** Which exceptions the constructor can raise *)

Lemma mapM_raise_inv {A B : Type} (f : A -> result B) (l : list A) (e : exn) :
  mapM f l = Raise e -> exists x, In x l /\ f x = Raise e.
Proof.
  induction l as [|y ys IH]; simpl; intros H; [discriminate|].
  destruct (f y) as [b|e0] eqn:Hy; simpl in H.
  - destruct (mapM f ys) as [bs|e1]; simpl in H; [discriminate|].
    injection H as ->. destruct (IH eq_refl) as (x & Hin & Hx). eauto.
  - injection H as ->. eauto.
Qed.

Lemma filterM_raise_inv {A : Type} (f : A -> result bool) (l : list A) (e : exn) :
  filterM f l = Raise e -> exists x, In x l /\ f x = Raise e.
Proof.
  induction l as [|y ys IH]; simpl; intros H; [discriminate|].
  destruct (f y) as [b|e0] eqn:Hy; simpl in H.
  - destruct (filterM f ys) as [bs|e1]; simpl in H; [discriminate|].
    injection H as ->. destruct (IH eq_refl) as (x & Hin & Hx). eauto.
  - injection H as ->. eauto.
Qed.

Lemma py_getitem_raise {A : Type} (l : list A) (i : Z) (e : exn) :
  py_getitem l i = Raise e -> e = IndexError.
Proof.
  unfold py_getitem.
  destruct (_ <? 0); [congruence|]. destruct (nth_error _ _); congruence.
Qed.

Lemma all_increasing_raise (Qs : list Z) (pairs : list (Z * Z)) (order : Z) (e : exn) :
  all_increasing Qs order pairs = Raise e ->
  e = IndexError \/ e = ZeroDivisionError.
Proof.
  revert order; induction pairs as [|[i j] rest IH]; intros order H; simpl in H;
    [discriminate|].
  destruct (py_getitem Qs order) as [qi|e0] eqn:Hqi; simpl in H;
    [|injection H as <-; left; eapply py_getitem_raise, Hqi].
  unfold py_floordiv at 1 in H. destruct (qi =? 0); simpl in H;
    [injection H as <-; now right|].
  destruct (py_getitem Qs (order + 1)) as [qj|e0] eqn:Hqj; simpl in H;
    [|injection H as <-; left; eapply py_getitem_raise, Hqj].
  unfold py_floordiv in H. destruct (qj =? 0); simpl in H;
    [injection H as <-; now right|].
  destruct (_ <? _); [eapply IH, H | discriminate].
Qed.

Lemma create_sc_paths_raise (self : t) (e : exn) :
  create_sc_paths self = Raise e -> e = IndexError \/ e = ZeroDivisionError.
Proof.
  intros H. apply mapM_raise_inv in H as (n & _ & H).
  unfold sc_paths_of_order in H.
  destruct (mapM (range_of self) (py_range n)) as [ranges|e0] eqn:Hranges;
    simpl in H.
  - apply filterM_raise_inv in H as (p & _ & H). unfold condition in H.
    destruct (_ <=? _); [eapply all_increasing_raise, H | discriminate].
  - injection H as <-. apply mapM_raise_inv in Hranges as (o & _ & Ho).
    unfold range_of, JQ in Ho.
    destruct (py_getitem (Qs self) (o + 1 - 1)) eqn:Hq; simpl in Ho;
      [discriminate|].
    injection Ho as <-. left. eapply py_getitem_raise, Hq.
Qed.

Lemma compute_low_pass_mask_raise (self : t) (e : exn) :
  compute_low_pass_mask self = Raise e -> e = IndexError.
Proof.
  intros H. apply mapM_raise_inv in H as ([order paths] & _ & H). simpl in H.
  unfold np_last_column, np_2d in H. destruct paths as [|row rows]; simpl in H;
    [congruence|].
  unfold JQ in H.
  destruct (py_getitem (Qs self) (order + 1 - 1)) eqn:Hq; simpl in H;
    [discriminate|].
  injection H as <-. eapply py_getitem_raise, Hq.
Qed.

(** A stable sort leaves a list alone when no element is smaller than an
    earlier one. *)
Lemma stable_sort_sorted {A : Type} (lt : A -> A -> bool) (l : list A) :
  StronglySorted (fun a b => lt b a = false) l -> stable_sort lt l = l.
Proof.
  intros Hl. unfold stable_sort.
  assert (Hins : forall x acc, Forall (fun y => lt x y = false) acc ->
                               insert_sorted lt x acc = acc ++ [x]).
  { intros x acc Hacc. induction Hacc as [|y acc Hy _ IH]; simpl; [reflexivity|].
    now rewrite Hy, IH. }
  assert (Hfold : forall rest acc,
             StronglySorted (fun a b => lt b a = false) (acc ++ rest) ->
             fold_left (fun acc x => insert_sorted lt x acc) rest acc = acc ++ rest).
  { induction rest as [|x rest IH]; intros acc Hsorted; simpl;
      [now rewrite app_nil_r|].
    rewrite Hins.
    - rewrite IH; rewrite <- app_assoc; [reflexivity | exact Hsorted].
    - apply Forall_forall. intros y Hy.
      clear IH Hins. induction acc as [|z acc IHacc]; [contradiction|].
      simpl in Hsorted. apply StronglySorted_inv in Hsorted as [Htail Hz].
      destruct Hy as [->|Hy]; [|now apply IHacc].
      rewrite Forall_forall in Hz. apply Hz. apply in_or_app. right. now left. }
  apply (Hfold l []). exact Hl.
Qed.

Lemma tuple_ltb_total (p q : list Z) :
  tuple_ltb p q = false -> p <> q -> tuple_ltb q p = true.
Proof.
  revert q; induction p as [|x p IH]; intros [|y q]; simpl; try easy.
  destruct (Z.ltb_spec x y), (Z.ltb_spec y x), (Z.eqb_spec x y), (Z.eqb_spec y x);
    try lia; try easy.
  intros Hpq Hne. apply IH; [assumption | congruence].
Qed.

Lemma tuple_eqb_true (p q : list Z) : tuple_eqb p q = true <-> p = q.
Proof. unfold tuple_eqb. destruct (list_eq_dec Z.eq_dec p q); split; easy. Qed.

Lemma dedup_adjacent_In (l : list (list Z)) (x : list Z) :
  In x (dedup_adjacent l) <-> In x l.
Proof.
  induction l as [|y l IH]; [reflexivity|].
  destruct l as [|z l]; [reflexivity|].
  change (dedup_adjacent (y :: z :: l))
    with (if tuple_eqb y z then dedup_adjacent (z :: l)
          else y :: dedup_adjacent (z :: l)).
  destruct (tuple_eqb y z) eqn:Hyz.
  - apply tuple_eqb_true in Hyz as ->. rewrite IH. simpl. tauto.
  - simpl In at 1. rewrite IH. simpl. tauto.
Qed.

(** Removing adjacent duplicates from a non-decreasing list of tuples
    leaves a strictly increasing one. *)
Lemma dedup_adjacent_sorted (l : list (list Z)) :
  StronglySorted (fun a b => tuple_ltb b a = false) l ->
  StronglySorted (fun a b => tuple_ltb a b = true) (dedup_adjacent l).
Proof.
  induction 1 as [|y l Hl IH Hy]; [constructor|].
  destruct l as [|z l]; [repeat constructor|].
  change (dedup_adjacent (y :: z :: l))
    with (if tuple_eqb y z then dedup_adjacent (z :: l)
          else y :: dedup_adjacent (z :: l)).
  destruct (tuple_eqb y z) eqn:Hyz; [assumption|].
  constructor; [assumption|].
  apply Forall_forall. intros w Hw.
  apply (proj1 (dedup_adjacent_In _ _)) in Hw.
  rewrite Forall_forall in Hy.
  assert (Hyw : tuple_ltb w y = false) by (apply Hy; assumption).
  apply tuple_ltb_total; [assumption|]. intros Heq. subst w.
  assert (Hne : y <> z).
  { intros Heq. apply tuple_eqb_true in Heq. congruence. }
  assert (Hzy : tuple_ltb z y = false) by (apply Hy; now left).
  destruct Hw as [Hw|Hw]; [congruence|].
  apply StronglySorted_inv in Hl as [_ Hz]. rewrite Forall_forall in Hz.
  pose proof (Hz y Hw) as Hyz'.
  pose proof (tuple_ltb_total _ _ Hyz' Hne). congruence.
Qed.

(** Two strictly increasing lists with the same elements are equal. *)
Lemma sorted_lists_equal (l1 l2 : list (list Z)) :
  StronglySorted (fun a b => tuple_ltb a b = true) l1 ->
  StronglySorted (fun a b => tuple_ltb a b = true) l2 ->
  (forall x, In x l1 <-> In x l2) -> l1 = l2.
Proof.
  intros H1; revert l2; induction H1 as [|a l1 Hl1 IH Ha]; intros l2 H2 Hsame.
  - destruct l2 as [|b l2]; [reflexivity|].
    exfalso. apply (Hsame b). now left.
  - destruct H2 as [|b l2 Hl2 Hb].
    { exfalso. apply (Hsame a). now left. }
    rewrite Forall_forall in Ha, Hb.
    assert (Hab : a = b).
    { destruct (proj1 (Hsame a) (or_introl eq_refl)) as [|Hin]; [congruence|].
      destruct (proj2 (Hsame b) (or_introl eq_refl)) as [|Hin']; [congruence|].
      pose proof (Hb a Hin) as Hba. pose proof (Ha b Hin') as Hab.
      rewrite (tuple_ltb_asym _ _ Hba) in Hab. discriminate. }
    subst b. f_equal. apply IH; [assumption|].
    intros x. split; intros Hx.
    + destruct (proj1 (Hsame x) (or_intror Hx)) as [<-|]; [|assumption].
      pose proof (Ha a Hx) as Haa. rewrite tuple_ltb_irrefl in Haa. discriminate.
    + destruct (proj2 (Hsame x) (or_intror Hx)) as [<-|]; [|assumption].
      pose proof (Hb a Hx) as Haa. rewrite tuple_ltb_irrefl in Haa. discriminate.
Qed.

Lemma np_all_eq_refl (a : list (list Z)) : np_all_eq a a = true.
Proof.
  unfold np_all_eq. rewrite Nat.eqb_refl.
  induction a as [|x a IH]; simpl; [reflexivity|].
  rewrite IH, andb_true_r. now apply tuple_eqb_true.
Qed.

Lemma np_select_rows_map (rows : list (list Z)) (f : list Z -> bool) :
  np_select_rows rows (map f rows) = filter f rows.
Proof.
  unfold np_select_rows. induction rows as [|x rows IH]; simpl; [reflexivity|].
  destruct (f x); simpl; now rewrite IH.
Qed.

Lemma removelast_monotone (p q : list Z) :
  length p = length q -> tuple_ltb p q = true ->
  tuple_ltb (removelast q) (removelast p) = false.
Proof.
  revert q; induction p as [|x p IH]; intros [|y q] Hlen Hpq; try discriminate.
  simpl in Hlen. injection Hlen as Hlen.
  destruct p as [|x' p], q as [|y' q]; try discriminate; [reflexivity|].
  change (removelast (y :: y' :: q)) with (y :: removelast (y' :: q)).
  change (removelast (x :: x' :: p)) with (x :: removelast (x' :: p)).
  change (tuple_ltb (x :: x' :: p) (y :: y' :: q))
    with (if x <? y then true
          else if x =? y then tuple_ltb (x' :: p) (y' :: q) else false) in Hpq.
  change (tuple_ltb (y :: removelast (y' :: q)) (x :: removelast (x' :: p)))
    with (if y <? x then true
          else if y =? x
               then tuple_ltb (removelast (y' :: q)) (removelast (x' :: p))
               else false).
  destruct (Z.ltb_spec x y), (Z.ltb_spec y x), (Z.eqb_spec x y), (Z.eqb_spec y x);
    try lia; try easy.
  apply IH; assumption.
Qed.

Lemma mapM_getitem_range {A : Type} (l : list A) :
  mapM (py_getitem l) (py_range (len l)) = Ok l.
Proof.
  apply mapM_of_Forall2, Forall2_of_nth_error.
  - unfold py_range. rewrite py_range2_length. unfold len. lia.
  - intros k i x Hi Hx.
    assert (Hk : (k < length l)%nat) by (apply nth_error_Some; congruence).
    unfold py_range in Hi. rewrite py_range2_nth_error in Hi by (unfold len; lia).
    assert (Hi' : i = Z.of_nat k).
    { apply (f_equal (fun o => match o with Some z => z | None => 0 end)) in Hi.
      cbv beta iota in Hi. lia. }
    rewrite Hi', py_getitem_nonneg, Nat2Z.id, Hx by lia. reflexivity.
Qed.

Lemma combine_sorted_by_snd (l v : list Z) :
  StronglySorted Z.le v ->
  StronglySorted (fun a b : Z * Z => (snd b <? snd a) = false) (combine l v).
Proof.
  intros Hv; revert l; induction Hv as [|y v Hv IH Hy]; intros [|x l]; simpl;
    try constructor; [apply IH|].
  apply Forall_forall. intros [i z] Hin. apply in_combine_r in Hin.
  rewrite Forall_forall in Hy. specialize (Hy z Hin). simpl.
  destruct (Z.ltb_spec z y); [lia | reflexivity].
Qed.

(** On values that never decrease, [np.argsort] is the identity. *)
Lemma np_argsort_sorted (v : list Z) :
  StronglySorted Z.le v -> np_argsort v = py_range (len v).
Proof.
  intros Hv. unfold np_argsort.
  rewrite stable_sort_sorted by (apply combine_sorted_by_snd, Hv).
  apply enumerate_fst.
Qed.

Lemma forallb_ones (Qs : list Z) :
  forallb (fun Q => Q =? 1) Qs = true -> Forall (fun q => q = 1) Qs.
Proof.
  rewrite forallb_forall, Forall_forall. intros H q Hq.
  now apply Z.eqb_eq, H.
Qed.

Section Stages.
Variable self : t.
Hypothesis enumerated : create_sc_paths self = Ok (sc_paths self).
Hypothesis coded :
  construct_path_coding_dicts self = (p_coding self, p_decoding self).

Lemma stage_order_table (k : nat) (rows : list (list Z)) :
  nth_error (sc_paths self) k = Some rows ->
  (k < Z.to_nat (r_max self))%nat /\ NoDup rows /\
  forall p, In p rows <-> admissible (J self) (Qs self) (Z.of_nat k + 1) p.
Proof.
  intros Hk. destruct (create_sc_paths_nth _ _ enumerated) as [_ Hnth].
  destruct (Hnth k rows Hk) as [Hlt Hrows]. split; [assumption|]. split.
  - eapply sc_paths_of_order_NoDup, Hrows.
  - apply sc_paths_of_order_spec; [lia | assumption].
Qed.

Lemma stage_all_paths_NoDup : NoDup (all_paths self).
Proof.
  apply (NoDup_concat_by_length _ 1). intros k rows Hk.
  destruct (stage_order_table k rows Hk) as (_ & Hnd & Hspec).
  split; [assumption|].
  intros p Hp. apply Hspec in Hp as [Hlen _]. unfold len in Hlen. lia.
Qed.

Lemma stage_all_paths_nonneg (p : list Z) :
  In p (all_paths self) -> p <> [] /\ 0 <= last p 0.
Proof.
  intros Hp. apply in_concat in Hp as (rows & Hrows & Hp).
  apply In_nth_error in Hrows as [k Hk].
  destruct (stage_order_table k rows Hk) as (_ & _ & Hspec).
  apply Hspec in Hp as (Hlen & Hrg & _).
  assert (Hne : p <> []) by (intros ->; unfold len in Hlen; simpl in Hlen; lia).
  split; [assumption|].
  destruct (exists_last Hne) as (p' & j & ->). rewrite last_last.
  destruct (Hrg (length p') j) as (q & _ & Hj); [|lia].
  now rewrite nth_error_app2, Nat.sub_diag by lia.
Qed.

Lemma stage_all_paths_nonempty : ~ In [] (all_paths self).
Proof. intros H. now apply stage_all_paths_nonneg in H as [H _]. Qed.

Lemma stage_coding : p_coding self = ([], 0) :: numbered self.
Proof.
  rewrite <- (coding_eq self stage_all_paths_NoDup stage_all_paths_nonempty).
  now rewrite coded.
Qed.

Lemma stage_path_to_idx (p : list Z) :
  In p (all_paths self) -> exists idx, path_to_idx self p = Ok idx.
Proof.
  intros Hp. destruct (stage_all_paths_nonneg p Hp) as [_ Hlast].
  apply In_nth_error in Hp as [k Hk]. exists (Z.of_nat k).
  unfold path_to_idx, cut_at_sentinel, od_getitem.
  destruct (Z.eqb_spec (last p 0) (-1)); [lia|]. rewrite andb_false_r.
  replace (p_coding self) with (fst (construct_path_coding_dicts self))
    by (now rewrite coded).
  now rewrite (coding_lookup_nth self stage_all_paths_NoDup
                 stage_all_paths_nonempty k p Hk).
Qed.

(** Every enumerated path has a key, so building the index tables
    cannot fail. *)
Lemma stage_create_sc_idces : exists idces, create_sc_idces self = Ok idces.
Proof.
  unfold create_sc_idces. apply mapM_total. intros n Hn.
  apply py_range2_In in Hn.
  destruct (create_sc_paths_nth _ _ enumerated) as [Hlen _].
  rewrite py_getitem_nonneg by lia.
  destruct (nth_error (sc_paths self) (Z.to_nat (n - 1))) as [rows|] eqn:Hrows;
    [|apply nth_error_None in Hrows; lia].
  cbn [bind]. apply mapM_total. intros p Hp. apply stage_path_to_idx.
  unfold all_paths. apply in_concat. exists rows.
  split; [eapply nth_error_In, Hrows | assumption].
Qed.

(** The first assertion of [checks] holds. *)
Lemma stage_same_order :
  mapM (py_getitem (od_keys (p_coding self)))
       (np_argsort (od_values (p_coding self))) =
  Ok (od_keys (p_coding self)).
Proof.
  assert (Hvalues : od_values (p_coding self) =
                    0 :: py_range (len (all_paths self))).
  { rewrite stage_coding. unfold od_values, numbered. simpl.
    rewrite map_map. simpl. now rewrite enumerate_fst. }
  rewrite np_argsort_sorted.
  - replace (len (od_values (p_coding self))) with (len (od_keys (p_coding self)))
      by (unfold len, od_values, od_keys; now rewrite !length_map).
    apply mapM_getitem_range.
  - rewrite Hvalues. constructor.
    + eapply StronglySorted_weaken; [|apply py_range2_sorted].
      intros a b _ _ Hab. lia.
    + apply Forall_forall. intros i Hi. apply py_range_In in Hi. lia.
Qed.
End Stages.

(** With every density 1, the distinct parents of the order-2 paths are
    the order-1 paths that do not end with the low pass: the second
    assertion of [checks] compares two equal tables. *)
Lemma stage_collapse (self : t) (rows1 rows2 : list (list Z)) :
  create_sc_paths self = Ok (sc_paths self) ->
  Forall (fun q => q = 1) (Qs self) ->
  nth_error (Qs self) 0 = Some 1 -> nth_error (Qs self) 1 = Some 1 ->
  nth_error (sc_paths self) 0 = Some rows1 ->
  nth_error (sc_paths self) 1 = Some rows2 ->
  np_unique_rows (map (@removelast Z) rows2) =
  filter (fun p => negb (last p 0 =? J self * 1)) rows1.
Proof.
  intros Hpaths Hones Hq0 Hq1 Hrows1 Hrows2.
  destruct (create_sc_paths_nth _ _ Hpaths) as [_ Hnth].
  destruct (Hnth _ _ Hrows1) as [_ Horder1].
  destruct (Hnth _ _ Hrows2) as [_ Horder2].
  destruct (stage_order_table self Hpaths _ _ Hrows1) as (_ & _ & Hspec1).
  destruct (stage_order_table self Hpaths _ _ Hrows2) as (_ & _ & Hspec2).
  change (Z.of_nat 0 + 1) with 1 in Hspec1.
  change (Z.of_nat 1 + 1) with 2 in Hspec2.
  unfold np_unique_rows.
  rewrite stable_sort_sorted.
  2:{ eapply StronglySorted_map
        with (R := fun a b => tuple_ltb a b = true /\ length a = length b).
      - intros a b [Hab Hlen]. now apply removelast_monotone.
      - eapply StronglySorted_weaken; [|eapply sc_paths_of_order_sorted, Horder2].
        intros a b Ha Hb Hab. split; [assumption|].
        apply Hspec2 in Ha as [Ha _]. apply Hspec2 in Hb as [Hb _].
        unfold len in Ha, Hb. lia. }
  apply sorted_lists_equal.
  - apply dedup_adjacent_sorted.
    eapply StronglySorted_map
      with (R := fun a b => tuple_ltb a b = true /\ length a = length b).
    + intros a b [Hab Hlen]. now apply removelast_monotone.
    + eapply StronglySorted_weaken; [|eapply sc_paths_of_order_sorted, Horder2].
      intros a b Ha Hb Hab. split; [assumption|].
      apply Hspec2 in Ha as [Ha _]. apply Hspec2 in Hb as [Hb _].
      unfold len in Ha, Hb. lia.
  - apply StronglySorted_filter. eapply sc_paths_of_order_sorted, Horder1.
  - intros x. rewrite dedup_adjacent_In, in_map_iff, filter_In. split.
    + intros (p & <- & Hp). apply Hspec2 in Hp.
      pose proof (admissible_removelast _ _ 2 p ltac:(lia) Hp) as Hparent.
      split; [now apply Hspec1|].
      destruct Hp as (Hlen & Hrg & Hinc).
      destruct p as [|a [|b [|c p]]]; try (unfold len in Hlen; simpl in Hlen; lia).
      destruct (Hrg 1%nat b eq_refl) as (qb & Hqb & Hb).
      rewrite Hq1 in Hqb. injection Hqb as <-.
      pose proof (Hinc 0%nat a b 1 1 eq_refl eq_refl Hq0 Hq1) as Hlt.
      rewrite !Z.div_1_r in Hlt. simpl.
      destruct (Z.eqb_spec a (J self * 1)); [lia | reflexivity].
    + intros [Hx Hlast]. apply Hspec1 in Hx as (Hlen & Hrg & _).
      destruct x as [|a [|b x]]; try (unfold len in Hlen; simpl in Hlen; lia).
      destruct (Hrg 0%nat a eq_refl) as (qa & Hqa & Ha).
      rewrite Hq0 in Hqa. injection Hqa as <-.
      simpl in Hlast. destruct (Z.eqb_spec a (J self * 1)); [discriminate|].
      exists [a; J self]. split; [reflexivity|]. apply Hspec2.
      split; [reflexivity|]. split.
      * intros k j Hk. destruct k as [|[|k]]; simpl in Hk.
        -- injection Hk as <-. exists 1. split; [assumption | lia].
        -- injection Hk as <-. exists 1. split; [assumption | lia].
        -- destruct k; discriminate.
      * intros k u v qu qv Hu Hv Hqu Hqv.
        destruct k as [|[|k]]; simpl in Hu, Hv;
          [|discriminate | destruct k; discriminate].
        injection Hu as <-. injection Hv as <-.
        rewrite Hq0 in Hqu. rewrite Hq1 in Hqv.
        injection Hqu as <-. injection Hqv as <-.
        rewrite !Z.div_1_r. lia.
Qed.

(** The self-check cannot fail once the tables, dictionaries and masks
    are built. *)
Lemma stage_checks (self : t) :
  create_sc_paths self = Ok (sc_paths self) ->
  construct_path_coding_dicts self = (p_coding self, p_decoding self) ->
  compute_low_pass_mask self = Ok (low_pass_mask self) ->
  checks self = Ok tt.
Proof.
  intros Hpaths Hdicts Hmask. unfold checks.
  rewrite (stage_same_order self Hpaths Hdicts). cbn [bind].
  rewrite sorted_by_compare_is_identity.
  destruct (list_eq_dec path_eq_dec _ _) as [_|Hne]; [|contradiction].
  cbn [assert bind].
  destruct (forallb (fun Q => Q =? 1) (Qs self)) eqn:Hones; [|reflexivity].
  destruct (Z.leb_spec 2 (r_max self)) as [Hr|_]; [|reflexivity].
  apply forallb_ones in Hones.
  destruct (create_sc_paths_nth _ _ Hpaths) as [Hlen _].
  destruct (nth_error (sc_paths self) 0) as [rows1|] eqn:Hrows1;
    [|apply nth_error_None in Hrows1; lia].
  destruct (nth_error (sc_paths self) 1) as [rows2|] eqn:Hrows2;
    [|apply nth_error_None in Hrows2; lia].
  destruct (low_pass_mask_nth _ _ 0 _ Hmask ltac:(lia) Hrows1)
    as (_ & q0 & Hq0 & Hmask0).
  destruct (low_pass_mask_nth _ _ 1 _ Hmask ltac:(lia) Hrows2)
    as (Hne2 & q1 & Hq1 & _).
  rewrite Forall_forall in Hones.
  assert (q0 = 1) by (eapply Hones, nth_error_In, Hq0). subst q0.
  assert (q1 = 1) by (eapply Hones, nth_error_In, Hq1). subst q1.
  rewrite <- Forall_forall in Hones.
  cbn [mapM]. change (2 - 1) with 1. change (2 - 2) with 0.
  rewrite !py_getitem_nonneg by lia.
  change (Z.to_nat 1) with 1%nat. change (Z.to_nat 0) with 0%nat.
  rewrite Hrows2. cbn [bind].
  unfold np_drop_last_column, np_2d.
  destruct rows2 as [|row2 rows2']; [contradiction|]. cbn [bind].
  rewrite Hrows1, Hmask0. cbn [bind].
  rewrite map_map, np_select_rows_map.
  rewrite (stage_collapse self rows1 (row2 :: rows2') Hpaths Hones Hq0 Hq1
             Hrows1 Hrows2).
  rewrite np_all_eq_refl. reflexivity.
Qed.

(** X17. The constructor never fails its own self-check and never misses a
    key: whatever the arguments, the only exceptions that leave
    [__init__] are the index error (a density missing from [Qs], or one of
    the first three orders without any admissible path) and the division
    by zero (a zero density), never an assertion error or a key error. *)
Theorem X17_constructor_failures (J : Z) (Qs : list Z) (r_max : Z) (e : exn) :
  __init__ J Qs r_max = Raise e -> e = IndexError \/ e = ZeroDivisionError.
Proof.
  unfold __init__. intros H.
  destruct (create_sc_paths (mk J Qs r_max [] [] [] [] [])) as [paths|e0] eqn:Hpaths;
    cbn [bind] in H;
    [|injection H as <-; eapply create_sc_paths_raise, Hpaths].
  destruct (construct_path_coding_dicts (mk J Qs r_max paths [] [] [] []))
    as [coding decoding] eqn:Hdicts.
  destruct (stage_create_sc_idces (mk J Qs r_max paths coding decoding [] []))
    as [idces Hidces]; [exact Hpaths | exact Hdicts |].
  rewrite Hidces in H. cbn [bind] in H.
  destruct (compute_low_pass_mask (mk J Qs r_max paths coding decoding idces []))
    as [mask|e0] eqn:Hmask; cbn [bind] in H;
    [|injection H as <-; left; eapply compute_low_pass_mask_raise, Hmask].
  rewrite (stage_checks (mk J Qs r_max paths coding decoding idces mask)) in H;
    [discriminate | exact Hpaths | exact Hdicts | exact Hmask].
Qed.

Lemma X17_constructor_failures_witness :
  IndexError = IndexError \/ IndexError = ZeroDivisionError.
Proof.
  apply (X17_constructor_failures (-1) [1] 1 IndexError). reflexivity.
Defined.

(** ** More on the tables *)

(** X18. Every table of [sc_paths] is strictly increasing in the
    lexicographic order of tuples, so no path is listed twice, in one
    table or across the tables. *)
Theorem X18_tables_are_increasing (J : Z) (Qs : list Z) (r_max : Z) (self : t) :
  __init__ J Qs r_max = Ok self ->
  Forall (StronglySorted (fun p q => tuple_ltb p q = true)) (sc_paths self) /\
  NoDup (concat (sc_paths self)).
Proof.
  intros Hinit. split; [|apply (all_paths_NoDup _ _ _ _ Hinit)].
  destruct (init_ok _ _ _ _ Hinit) as (_ & _ & _ & Hpaths & _).
  destruct (create_sc_paths_nth _ _ Hpaths) as [_ Hnth].
  apply Forall_forall. intros rows Hrows.
  apply In_nth_error in Hrows as [k Hk].
  destruct (Hnth k rows Hk) as [_ Horder].
  eapply sc_paths_of_order_sorted, Horder.
Qed.

Lemma X18_tables_are_increasing_witness :
  Forall (StronglySorted (fun p q => tuple_ltb p q = true))
         (sc_paths indexer_2_21) /\
  NoDup (concat (sc_paths indexer_2_21)).
Proof. apply (X18_tables_are_increasing 2 [2; 1] 2 indexer_2_21). reflexivity. Defined.



(** Along an admissible path with positive densities the octave
    [jk // Qs[k-1]] of the [k]-th coordinate is at least [k - 1]. *)
Lemma octave_lower_bound (J : Z) (Qs : list Z) (n : Z) (p : list Z) :
  Forall (fun q => 0 < q) Qs -> admissible J Qs n p ->
  forall k j q, nth_error p k = Some j -> nth_error Qs k = Some q ->
                Z.of_nat k <= j / q.
Proof.
  intros Hpos (_ & Hrg & Hinc). rewrite Forall_forall in Hpos.
  induction k as [|k IH]; intros j q Hj Hq.
  - destruct (Hrg _ _ Hj) as (q' & Hq' & Hbound).
    apply Z.div_pos; [lia|]. eapply Hpos, nth_error_In, Hq.
  - destruct (nth_error p k) as [i|] eqn:Hi;
      [|apply nth_error_None in Hi;
        assert (S k < length p)%nat by (apply nth_error_Some; congruence); lia].
    destruct (Hrg _ _ Hi) as (qi & Hqi & _).
    pose proof (IH i qi eq_refl Hqi) as Hlow.
    pose proof (Hinc k i j qi q Hi Hj Hqi Hq). lia.
Qed.

(** X20. With positive densities a path cannot be longer than [J + 1]:
    every enumerated path has at most [J + 1] coordinates, and since a
    constructed indexer has a path at each of its first three orders,
    [min(r_max, 3)] is at most [J + 1] when [r_max] is at least 1. *)
Theorem X20_orders_are_bounded_by_octaves (J : Z) (Qs : list Z) (r_max : Z)
        (self : t) :
  __init__ J Qs r_max = Ok self -> Forall (fun q => 0 < q) Qs ->
  (forall p, In p (concat (sc_paths self)) -> len p <= J + 1) /\
  (1 <= r_max -> Z.min r_max 3 <= J + 1).
Proof.
  intros Hinit Hpos.
  assert (Hbound : forall p, In p (concat (sc_paths self)) -> len p <= J + 1).
  { intros p Hp.
    pose proof (all_paths_nonneg _ _ _ _ Hinit p Hp) as [Hne _].
    apply (all_paths_In _ _ _ _ Hinit) in Hp as (n & Hn & Hadm).
    destruct (exists_last Hne) as (p' & j & ->).
    assert (Hj : nth_error (p' ++ [j]) (length p') = Some j)
      by (now rewrite nth_error_app2, Nat.sub_diag by lia).
    pose proof Hadm as (_ & Hrg & _).
    destruct (Hrg _ _ Hj) as (q & Hq & Hjq).
    pose proof (octave_lower_bound _ _ _ _ Hpos Hadm _ _ _ Hj Hq) as Hlow.
    rewrite Forall_forall in Hpos.
    assert (Hq_pos : 0 < q) by (eapply Hpos, nth_error_In, Hq).
    assert (j / q <= J) by (apply Z.div_le_upper_bound; [assumption | lia]).
    unfold len. rewrite length_app. simpl. lia. }
  split; [assumption|]. intros Hr.
  destruct (order_table_exists _ _ _ _ Hinit (Z.min r_max 3)) as [rows Hrows];
    [lia|].
  destruct (init_ok _ _ _ _ Hinit) as (_ & _ & _ & _ & _ & _ & Hmask & _).
  destruct (low_pass_mask_nth _ _ (Z.to_nat (Z.min r_max 3 - 1)) _ Hmask
              ltac:(lia) Hrows) as (Hne & _).
  destruct rows as [|p rows]; [contradiction|].
  assert (Hin : In p (p :: rows)) by now left.
  pose proof (proj1 (proj2 (order_table _ _ _ _ Hinit _ _ Hrows) p) Hin)
    as (Hlen & _).
  assert (Hp : In p (concat (sc_paths self))).
  { apply in_concat. exists (p :: rows).
    split; [eapply nth_error_In, Hrows | assumption]. }
  pose proof (Hbound p Hp). lia.
Qed.

Lemma X20_orders_are_bounded_by_octaves_witness :
  (forall p, In p (concat (sc_paths indexer_2_21)) -> len p <= 2 + 1) /\
  Z.min 2 3 <= 2 + 1.
Proof.
  destruct (X20_orders_are_bounded_by_octaves 2 [2; 1] 2 indexer_2_21)
    as [Hpaths Hmin]; [reflexivity | repeat constructor |].
  split; [exact Hpaths | apply Hmin; lia].
Defined.

(** ** Zero densities *)




